(** * Block editor: inline autoformat, nested blocks and drag indicators

    A shallow embedding of the editor components
    [ParagraphBlock.jsx], [NestedBlock.jsx] and [SortableBlock], with the
    properties the design document states about them. *)

From Stdlib Require Import Ascii String List Arith NArith ZArith Lia Bool.
From Stdlib Require Import DecimalString.
From stdpp Require Import gmap strings list fin_maps.
Import ListNotations.

Local Open Scope list_scope.
Local Open Scope nat_scope.

(** ** JavaScript strings

    A JavaScript string is a sequence of 16-bit code units.  A code unit
    is modelled by its number; the regular expressions of the autoformatter
    carry no [u] or [i] flag and only ever compare a code unit with one of
    the three characters [*], [~] and the backtick, so nothing below
    depends on the bound on the numbers.  [js] turns a literal into the
    sequence of its code units. *)

Definition codeUnit : Type := N.

Definition jsstring : Type := list codeUnit.

Definition charCode (c : ascii) : codeUnit := N_of_ascii c.

Definition js (s : string) : jsstring := map charCode (list_ascii_of_string s).

(** ** Regular expressions of the autoformatter

    All four expressions of [convertInlineMarkdown] have one shape, a
    delimiter [d] written [w] times, a captured group of one or more code
    units other than [d], and [d] written [w] times again:

      - bold:    d is the asterisk, w = 2
      - italic:  d is the asterisk, w = 1
      - strike:  d is the tilde, w = 2
      - code:    d is the backtick, w = 1

    The italic expression stands between a negative lookbehind
    and a negative lookahead for [d]. *)

Module RegExp.

Record Pattern : Type := mkPattern {
  delim : codeUnit;   (* the delimiter character d *)
  width : nat;        (* number of d on each side of the group *)
  guarded : bool      (* (?<!d) in front and (?!d) behind *)
}.

(** The replacement strings all have the form [before$1after]. *)
Record Template : Type := mkTemplate {
  before : jsstring;
  after : jsstring
}.

(** A [RegExp] object: with the [g] flag, [lastIndex] is read and written
    by [test] and reset by [replace]. *)
Record t : Type := mkRegExp {
  source : Pattern;
  lastIndex : nat
}.

(** A regular-expression literal evaluates to a new object, [lastIndex = 0]. *)
Definition literal (p : Pattern) : t := mkRegExp p 0.

Section Matching.

Variable p : Pattern.

(** [d{n}] at the head of [s]; the rest of the input on success. *)
Fixpoint lit (n : nat) (s : jsstring) : option jsstring :=
  match n with
  | O => Some s
  | S n' =>
      match s with
      | c :: s' => if N.eqb c (delim p) then lit n' s' else None
      | [] => None
      end
  end.

(** [(?<!d)]: the code unit in front of the position, if any, is not [d]. *)
Definition lookbehind (prev : option codeUnit) : bool :=
  if guarded p then
    match prev with
    | Some c => negb (N.eqb c (delim p))
    | None => true
    end
  else true.

(** [(?!d)]: the code unit at the position, if any, is not [d]. *)
Definition lookahead (s : jsstring) : bool :=
  if guarded p then
    match s with
    | c :: _ => negb (N.eqb c (delim p))
    | [] => true
    end
  else true.

(** What follows the group: the closing delimiter and the lookahead.  The
    result is the capture and the input behind the match. *)
Definition closing (cap s : jsstring) : option (jsstring * jsstring) :=
  match lit (width p) s with
  | Some rest => if lookahead rest then Some (cap, rest) else None
  | None => None
  end.

(** The greedy quantifier of [[^d]+] after its first code unit: take one
    more code unit if there is one; when the remainder of the expression
    fails after that, give it back and try the remainder here. *)
Fixpoint more (cap s : jsstring) : option (jsstring * jsstring) :=
  match s with
  | c :: s' =>
      if N.eqb c (delim p) then closing cap s
      else
        match more (cap ++ [c]) s' with
        | Some m => Some m
        | None => closing cap s
        end
  | [] => closing cap s
  end.

(** [([^d]+)] and what follows it. *)
Definition group (s : jsstring) : option (jsstring * jsstring) :=
  match s with
  | c :: s' => if N.eqb c (delim p) then None else more [c] s'
  | [] => None
  end.

(** The longest run of code units other than [d] at the head of [s], and
    what is behind it: the only split of the input at which the group can
    end, as [more_greedy] shows. *)
Fixpoint untilDelim (s : jsstring) : jsstring * jsstring :=
  match s with
  | c :: s' =>
      if N.eqb c (delim p) then ([], s)
      else let '(run, rest) := untilDelim s' in (c :: run, rest)
  | [] => ([], [])
  end.

(** A match of the whole expression beginning exactly at the current
    position; [prev] is the code unit in front of it. *)
Definition matchAt (prev : option codeUnit) (s : jsstring)
  : option (jsstring * jsstring) :=
  if lookbehind prev then
    match lit (width p) s with
    | Some s1 => group s1
    | None => None
    end
  else None.

(** The first match at or behind the current position. *)
Fixpoint search (prev : option codeUnit) (s : jsstring)
  : option (jsstring * jsstring) :=
  match matchAt prev s with
  | Some m => Some m
  | None =>
      match s with
      | c :: s' => search (Some c) s'
      | [] => None
      end
  end.

Variable tpl : Template.

(** The loop of a global [replace]: every match is replaced by the
    template with [$1] filled in, and the search resumes behind the match;
    code units that begin no match are copied.  At most one turn per
    position, so [S (length s)] turns always suffice. *)
Fixpoint replaceLoop (fuel : nat) (prev : option codeUnit) (s : jsstring)
  : jsstring :=
  match fuel with
  | O => s
  | S fuel' =>
      match matchAt prev s with
      | Some (cap, rest) =>
          before tpl ++ cap ++ after tpl
            ++ replaceLoop fuel' (Some (delim p)) rest
      | None =>
          match s with
          | c :: s' => c :: replaceLoop fuel' (Some c) s'
          | [] => []
          end
      end
  end.

Definition replaceFrom (prev : option codeUnit) (s : jsstring) : jsstring :=
  replaceLoop (S (length s)) prev s.

End Matching.

(** The code unit in front of index [i]. *)
Definition charBefore (i : nat) (s : jsstring) : option codeUnit :=
  match i with
  | O => None
  | S j => nth_error s j
  end.

(** [re.test(s)] for a global expression: the search starts at
    [lastIndex]; a match moves [lastIndex] behind it, a failure resets it. *)
Definition test (re : t) (s : jsstring) : bool * t :=
  if length s <? lastIndex re then (false, mkRegExp (source re) 0)
  else
    match search (source re) (charBefore (lastIndex re) s)
                 (skipn (lastIndex re) s) with
    | Some (_, rest) =>
        (true, mkRegExp (source re) (length s - length rest))
    | None => (false, mkRegExp (source re) 0)
    end.

(** [s.replace(re, tpl)] for a global expression: [lastIndex] is set to 0
    first and is 0 again when the loop ends. *)
Definition replace (s : jsstring) (re : t) (tpl : Template)
  : jsstring * t :=
  (replaceFrom (source re) tpl None s, mkRegExp (source re) 0).

(** Expression objects live on the heap and are known by reference: a
    variable such as [boldPattern] holds a reference, and [test] and
    [replace] read and write the object it refers to. *)
Definition Ref : Type := nat.

Abbreviation Heap := (list t).

(** Evaluating a regular-expression literal allocates a new object. *)
Definition new (p : Pattern) (h : Heap) : Ref * Heap :=
  (length h, h ++ [literal p]).

(** [re.test(s)] and [s.replace(re, tpl)] through the reference [r];
    [None] stands for a reference to no object. *)
Definition testAt (r : Ref) (s : jsstring) (h : Heap)
  : option (bool * Heap) :=
  match h !! r with
  | Some re => let '(found, re') := test re s in Some (found, <[r := re']> h)
  | None => None
  end.

Definition replaceAt (s : jsstring) (r : Ref) (tpl : Template) (h : Heap)
  : option (jsstring * Heap) :=
  match h !! r with
  | Some re =>
      let '(out, re') := replace s re tpl in Some (out, <[r := re']> h)
  | None => None
  end.

(** [s] holds a terminated pair of the delimiter of [p]: an opening
    delimiter, at least one code unit other than the delimiter character,
    and a closing delimiter; for the italic delimiter, a single asterisk,
    neither of the two stands next to a further asterisk. *)
Definition terminated (p : Pattern) (s : jsstring) : Prop :=
  exists pre x post,
    s = pre ++ repeat (delim p) (width p) ++ x
          ++ repeat (delim p) (width p) ++ post
    /\ x <> [] /\ Forall (fun c => c <> delim p) x
    /\ lookbehind p (last pre) = true /\ lookahead p post = true.

(** A terminated pair of [p] begins at the head of [s], the code unit in
    front of it being [prev]. *)
Definition begins (p : Pattern) (prev : option codeUnit) (s : jsstring)
  : Prop :=
  exists x rest,
    s = repeat (delim p) (width p) ++ x ++ repeat (delim p) (width p) ++ rest
    /\ x <> [] /\ Forall (fun c => c <> delim p) x
    /\ lookbehind p prev = true /\ lookahead p rest = true.

(** What the design document says of one pattern, read from left to
    right: a code unit at which no terminated pair begins, an unterminated
    delimiter among them, is left verbatim; a terminated pair is replaced
    by the template around its content, and the reading goes on behind
    it. *)
Inductive Rewrites (p : Pattern) (tpl : Template)
  : option codeUnit -> jsstring -> jsstring -> Prop :=
  | rewrites_nil prev : Rewrites p tpl prev [] []
  | rewrites_verbatim prev c s out :
      ~ begins p prev (c :: s) ->
      Rewrites p tpl (Some c) s out ->
      Rewrites p tpl prev (c :: s) (c :: out)
  | rewrites_pair prev x rest out :
      x <> [] -> Forall (fun c => c <> delim p) x ->
      lookbehind p prev = true -> lookahead p rest = true ->
      Rewrites p tpl (Some (delim p)) rest out ->
      Rewrites p tpl prev
        (repeat (delim p) (width p) ++ x
           ++ repeat (delim p) (width p) ++ rest)
        (before tpl ++ x ++ after tpl ++ out).

(** [out] arises from [s] by replacing some terminated pairs of [p] by the
    template around their content and copying every other code unit. *)
Inductive Copies (p : Pattern) (tpl : Template)
  : jsstring -> jsstring -> Prop :=
  | copies_nil : Copies p tpl [] []
  | copies_unit c s out :
      Copies p tpl s out -> Copies p tpl (c :: s) (c :: out)
  | copies_pair x s out :
      x <> [] -> Forall (fun c => c <> delim p) x ->
      Copies p tpl s out ->
      Copies p tpl
        (repeat (delim p) (width p) ++ x ++ repeat (delim p) (width p) ++ s)
        (before tpl ++ x ++ after tpl ++ out).

End RegExp.

(** ** The editor store

    The components read the document and the active block from the store
    and change it through its mutators.  The block fields are those the
    components use: [id], [type], [content] and [properties]. *)

Module Store.

(** The block types, [BLOCK_TYPES] in the source. *)
Inductive BlockType : Type :=
  | PARAGRAPH | HEADING_1 | HEADING_2 | HEADING_3
  | TASK | QUOTE | DIVIDER | COLUMNS | TABS.

(** The values a property holds: [checked] is a boolean, [color],
    [background] and [align] are strings or [null]. *)
Inductive Value : Type :=
  | VBool (b : bool)
  | VString (s : string)
  | VNull.

Record Block : Type := mkBlock {
  id : string;
  type : BlockType;
  content : jsstring;
  properties : gmap string Value
}.

Record Document : Type := mkDocument {
  blocks : list Block
}.

Record EditorStore : Type := mkStore {
  document : Document;
  activeBlockId : option string
}.

(** [doc.blocks.find((b) => b.id === blockId)] *)
Definition findBlock (doc : Document) (blockId : string) : option Block :=
  List.find (fun b => String.eqb (id b) blockId) (blocks doc).

(** A patch of properties: a key is mapped to a value, or to [None], the
    sentinel that removes it. *)
Definition Patch : Type := gmap string (option Value).

(** The object literal handed to [updateNestedBlock]: the fields it names. *)
Record Updates : Type := mkUpdates {
  newContent : option jsstring;
  newProperties : option Patch
}.

Definition applyPatch (patch : Patch) (props : gmap string Value)
  : gmap string Value :=
  merge (fun change old =>
           match change with
           | Some v => v
           | None => old
           end) patch props.

Definition mapBlock (f : Block -> Block) (blockId : string)
    (st : EditorStore) : EditorStore :=
  mkStore
    (mkDocument
       (map (fun b => if String.eqb (id b) blockId then f b else b)
            (blocks (document st))))
    (activeBlockId st).

(** Modelled from the spec: the store module ([editorStore]) is not among
    the sources.  4.1: [updateContent(id, newContent)] is a full replace of
    [content]; an id that does not exist makes it a no-op. *)
Definition updateContent (blockId : string) (c : jsstring)
    (st : EditorStore) : EditorStore :=
  mapBlock (fun b => mkBlock (id b) (type b) c (properties b)) blockId st.

(** Modelled from the spec: the store module is not among the sources.
    4.1: [updateProperties(id, patch)] is a shallow merge into
    [properties]; unspecified keys are untouched; a key mapped to the
    sentinel is removed. *)
Definition updateProperties (blockId : string) (patch : Patch)
    (st : EditorStore) : EditorStore :=
  mapBlock
    (fun b => mkBlock (id b) (type b) (content b)
                (applyPatch patch (properties b)))
    blockId st.

(** Modelled from the spec: [updateNestedBlock] is a mutator of the store
    module, which is not among the sources.  The components call it with
    an object that names [content] or [properties]; each named field is
    passed to the operation of 4.1 for it, and the fields not named are
    left alone. *)
Definition updateNestedBlock (blockId : string) (u : Updates)
    (st : EditorStore) : EditorStore :=
  let st :=
    match newContent u with
    | Some c => updateContent blockId c st
    | None => st
    end in
  match newProperties u with
  | Some patch => updateProperties blockId patch st
  | None => st
  end.

(** Modelled from the spec: [setActiveBlock] is a mutator of the store
    module, which is not among the sources.  4.5: the single mutator of the
    active block pointer. *)
Definition setActiveBlock (blockId : string) (st : EditorStore)
  : EditorStore :=
  mkStore (document st) (Some blockId).

End Store.

(** ** Events and what a handler does to its surroundings *)

Module Dom.

Record KeyboardEvent : Type := mkKeyboardEvent {
  key : string;
  shiftKey : bool
}.

(** Calls a handler makes on the event, the document and the selection. *)
Inductive Effect : Type :=
  | PreventDefault
  | StopPropagation
  | ExecCommand (command : string)
  | CursorToEnd.

(** What the components leave to the browser.  [setInnerHTML html] is what
    [innerHTML] reads once [html] has been assigned to it: the browser
    parses the string and serialises the nodes again, so that [a & b]
    comes back with the ampersand as an entity; an element that is
    assigned the empty string is empty.  [execCommand c html] is the
    content of the editable element after [document.execCommand(c)] at
    the caret, when it was [html] before. *)
Record Browser : Type := mkBrowser {
  setInnerHTML : jsstring -> jsstring;
  execCommand : string -> jsstring -> jsstring;
  setInnerHTML_empty : setInnerHTML [] = []
}.

(** The content of the editable element after a call. *)
Definition perform (b : Browser) (html : jsstring) (eff : Effect)
  : jsstring :=
  match eff with
  | ExecCommand c => execCommand b c html
  | PreventDefault | StopPropagation | CursorToEnd => html
  end.

End Dom.

(** ** ParagraphBlock.jsx *)

Module ParagraphBlock.

Import RegExp.

Definition star : codeUnit := charCode "*".
Definition tilde : codeUnit := charCode "~".
Definition backtick : codeUnit := charCode "`".
Definition dquote : codeUnit := 34%N.

Definition boldPattern : Pattern := mkPattern star 2 false.
Definition italicPattern : Pattern := mkPattern star 1 true.
Definition strikePattern : Pattern := mkPattern tilde 2 false.
Definition codePattern : Pattern := mkPattern backtick 1 false.

Definition boldTemplate : Template :=
  mkTemplate (js "<strong>") (js "</strong>").
Definition italicTemplate : Template :=
  mkTemplate (js "<em>") (js "</em>").
Definition strikeTemplate : Template :=
  mkTemplate (js "<s>") (js "</s>").
Definition codeTemplate : Template :=
  mkTemplate
    (js "<code class=" ++ [dquote]
       ++ js "bg-gray-100 px-1 rounded text-sm font-mono" ++ [dquote]
       ++ js ">")
    (js "</code>").

(** One [if (pattern.test(converted)) { converted = converted.replace(...);
    changed = true; }] statement.  The expression is a literal in the
    function body, hence a new object in every call; the object is returned
    as the statement leaves it. *)
Definition convertStep (p : Pattern) (tpl : Template)
    (st : jsstring * bool) : (jsstring * bool) * RegExp.t :=
  let '(converted, changed) := st in
  let re := literal p in
  let '(found, re) := test re converted in
  if found then
    let '(converted, re) := replace converted re tpl in
    ((converted, true), re)
  else ((converted, changed), re).

(** The body of [convertInlineMarkdown]: the result [{ converted, changed }]
    and the four expression objects the call has created. *)
Definition body (html : jsstring) : (jsstring * bool) * list RegExp.t :=
  let st := (html, false) in
  let '(st, bold) := convertStep boldPattern boldTemplate st in
  let '(st, italic) := convertStep italicPattern italicTemplate st in
  let '(st, strike) := convertStep strikePattern strikeTemplate st in
  let '(st, code) := convertStep codePattern codeTemplate st in
  (st, [bold; italic; strike; code]).

Definition convertInlineMarkdown (html : jsstring) : jsstring * bool :=
  fst (body html).

(** The function as it runs, with the expression objects on the heap.
    [statement] is one [if (pattern.test(converted)) { ... }] on the
    object the variable refers to. *)
Definition statement (r : Ref) (tpl : Template) (st : jsstring * bool)
    (h : Heap) : option ((jsstring * bool) * Heap) :=
  let '(converted, changed) := st in
  '(found, h) ← testAt r converted h;
  if found : bool then
    '(converted, h) ← replaceAt converted r tpl h;
    Some ((converted, true), h)
  else Some ((converted, changed), h).

(** [const pattern = /.../g;] and the statement that uses [pattern]. *)
Definition declare (p : Pattern) (tpl : Template) (st : jsstring * bool)
    (h : Heap) : option ((jsstring * bool) * Heap) :=
  let '(r, h) := new p h in
  statement r tpl st h.

(** One call of [convertInlineMarkdown] on the heap [h]. *)
Definition invoke (html : jsstring) (h : Heap)
  : option ((jsstring * bool) * Heap) :=
  let st := (html, false) in
  '(st, h) ← declare boldPattern boldTemplate st h;
  '(st, h) ← declare italicPattern italicTemplate st h;
  '(st, h) ← declare strikePattern strikeTemplate st h;
  '(st, h) ← declare codePattern codeTemplate st h;
  Some (st, h).

(** The calls of one session, in order, each on the heap the calls before
    it have left. *)
Fixpoint session (heap : Heap) (inputs : list jsstring)
  : option (list (jsstring * bool) * Heap) :=
  match inputs with
  | [] => Some ([], heap)
  | html :: inputs' =>
      '(result, heap) ← invoke html heap;
      '(results, heap) ← session heap inputs';
      Some (result :: results, heap)
  end.

(** [pattern.test(s)] on a new object. *)
Definition matches (p : Pattern) (s : jsstring) : bool :=
  fst (test (literal p) s).

(** The result of one pass alone. *)
Definition pass (p : Pattern) (tpl : Template) (s : jsstring) : jsstring :=
  fst (fst (convertStep p tpl (s, false))).

(** The callbacks a [ParagraphBlock] receives from the editor. *)
Inductive PropCall : Type :=
  | OnContentChange (id : string) (content : jsstring)
  | OnKeyDown (e : Dom.KeyboardEvent) (id : string) (el : jsstring)
  | OnFocus (id : string).

(** [handleInput]: the content of the element ([el.innerHTML], a string,
    so the fallback to the empty string changes nothing) is converted,
    written back to the element when the conversion changed it, with the
    cursor put at the end, and handed to [onContentChange].  The result is
    the element's content afterwards, the calls on the selection and the
    calls of the callbacks. *)
Definition handleInput (id : string) (innerHTML : jsstring)
  : jsstring * list Dom.Effect * list PropCall :=
  let newContent := innerHTML in
  let '(converted, changed) := convertInlineMarkdown newContent in
  if changed then
    (converted, [Dom.CursorToEnd], [OnContentChange id converted])
  else
    (innerHTML, [], [OnContentChange id newContent]).

(** [handleKeyDown]: [onKeyDown(e, id, contentRef.current)]. *)
Definition handleKeyDown (id : string) (el : jsstring)
    (e : Dom.KeyboardEvent) : list PropCall :=
  [OnKeyDown e id el].

(** [handleFocus]: [onFocus(id)]. *)
Definition handleFocus (id : string) : list PropCall := [OnFocus id].

(** Modelled from the spec: the editor that passes [onContentChange] to
    the block is not among the sources; the block's own description says
    that content is synced to the store through it.  4.1:
    [updateContent(id, newContent)]. *)
Definition onContentChange (id : string) (content : jsstring)
    (st : Store.EditorStore) : Store.EditorStore :=
  Store.updateContent id content st.

(** A paragraph block on the page: its id and the content of its element. *)
Record Mounted : Type := mkMounted {
  blockId : string;
  innerHTML : jsstring
}.

(** What reaches a paragraph block: an input event, the user having
    changed the content of the element to [html], or the element losing
    the focus, for which the block has no handler. *)
Inductive Event : Type :=
  | Input (html : jsstring)
  | Blur.

Definition step (st : Store.EditorStore) (m : Mounted) (ev : Event)
  : Store.EditorStore * Mounted :=
  match ev with
  | Input html =>
      let '(html', _, calls) := handleInput (blockId m) html in
      (fold_left
         (fun st call =>
            match call with
            | OnContentChange id c => onContentChange id c st
            | _ => st
            end) calls st,
       mkMounted (blockId m) html')
  | Blur => (st, m)
  end.

(** The delimiter characters, the number of them in a string, and the
    function applied [n] times to its own output. *)
Definition isDelimiter (c : codeUnit) : bool :=
  N.eqb c star || N.eqb c tilde || N.eqb c backtick.

Definition delimiters (s : jsstring) : nat :=
  length (List.filter isDelimiter s).

Fixpoint iterate (n : nat) (html : jsstring) : jsstring :=
  match n with
  | O => html
  | S n' => iterate n' (fst (convertInlineMarkdown html))
  end.

(** The four expressions and their templates. *)
Inductive Rule : Pattern -> Template -> Prop :=
  | rule_bold : Rule boldPattern boldTemplate
  | rule_italic : Rule italicPattern italicTemplate
  | rule_strike : Rule strikePattern strikeTemplate
  | rule_code : Rule codePattern codeTemplate.

(** What holds between the input and the state after any statement:
    either nothing has happened, or the flag is set and the string is
    longer than the input. *)
Definition tracked (html : jsstring) (st : jsstring * bool) : Prop :=
  (snd st = false /\ fst st = html)
  \/ (snd st = true /\ length html < length (fst st)).

End ParagraphBlock.

(** ** NestedBlock.jsx *)

Module NestedBlock.

Import Store.

(** The two refs of a mounted component: the content of the editable
    element, when there is one, and the content last committed. *)
Record Refs : Type := mkRefs {
  contentRef : option jsstring;
  initialContentRef : option jsstring
}.

(** The two effects of l.26-40.  With a block, [initialContentRef] takes
    its content unless it holds one already, and the element, if it is
    empty, is assigned the content and then reads what the browser makes
    of it. *)
Definition effects (b : Dom.Browser) (st : EditorStore) (blockId : string)
    (r : Refs) : Refs :=
  match findBlock (document st) blockId with
  | Some block =>
      mkRefs
        (match contentRef r with
         | Some html =>
             if decide (html = [])
             then Some (Dom.setInnerHTML b (content block))
             else Some html
         | None => None
         end)
        (match initialContentRef r with
         | Some c => Some c
         | None => Some (content block)
         end)
  | None => r
  end.

(** Mounting: the first render puts the editable element on the page,
    empty, when there is a block, and nothing editable otherwise; then
    the effects run. *)
Definition mount (b : Dom.Browser) (st : EditorStore) (blockId : string)
  : Refs :=
  effects b st blockId
    (mkRefs
       (match findBlock (document st) blockId with
        | Some _ => Some []
        | None => None
        end)
       None).

(** [handleBlur] *)
Definition handleBlur (blockId : string) (st : EditorStore) (r : Refs)
  : EditorStore * Refs :=
  match contentRef r with
  | Some newContent =>
      if decide (Some newContent <> initialContentRef r) then
        (updateNestedBlock blockId (mkUpdates (Some newContent) None) st,
         mkRefs (contentRef r) (Some newContent))
      else (st, r)
  | None => (st, r)
  end.

(** [handleFocus] *)
Definition handleFocus (blockId : string) (st : EditorStore)
  : EditorStore :=
  setActiveBlock blockId st.

(** [handleKeyDown] *)
Definition handleKeyDown (e : Dom.KeyboardEvent) : list Dom.Effect :=
  (if String.eqb (Dom.key e) "Enter" && negb (Dom.shiftKey e)
   then [Dom.PreventDefault; Dom.ExecCommand "insertLineBreak"]
   else [])
  ++ [Dom.StopPropagation].

(** [handleCheckboxChange] *)
Definition handleCheckboxChange (blockId : string) (checked : bool)
    (st : EditorStore) : EditorStore :=
  match findBlock (document st) blockId with
  | None => st
  | Some block =>
      updateNestedBlock blockId
        (mkUpdates None
           (Some (Some <$> <["checked" := VBool checked]> (properties block))))
        st
  end.

(** What reaches a nested block: the user changes the content of the
    editable element to [html] (the component has no handler for that), a
    key goes down, the element gains or loses the focus, the checkbox of
    a task is switched. *)
Inductive Event : Type :=
  | Edit (html : jsstring)
  | KeyDown (e : Dom.KeyboardEvent)
  | Focus
  | Blur
  | CheckboxChange (checked : bool).

(** Whether [handleBlur] calls [updateNestedBlock]. *)
Definition commits (r : Refs) : bool :=
  match contentRef r with
  | Some newContent => bool_decide (Some newContent <> initialContentRef r)
  | None => false
  end.

(** One event.  The calls a key handler makes act on the element.  The
    effects depend on [block]: they run again after the render that
    follows a call of [updateNestedBlock], which puts a new object in the
    place of the block. *)
Definition step (b : Dom.Browser) (blockId : string) (st : EditorStore)
    (r : Refs) (ev : Event) : EditorStore * Refs * list Dom.Effect :=
  match ev with
  | Edit html =>
      (st,
       mkRefs (match contentRef r with Some _ => Some html | None => None end)
              (initialContentRef r),
       [])
  | KeyDown e =>
      let calls := handleKeyDown e in
      (st,
       mkRefs ((fun html => fold_left (Dom.perform b) calls html)
                 <$> contentRef r)
              (initialContentRef r),
       calls)
  | Focus => (handleFocus blockId st, r, [])
  | Blur =>
      let '(st', r') := handleBlur blockId st r in
      (st', if commits r then effects b st' blockId r' else r', [])
  | CheckboxChange checked =>
      let st' := handleCheckboxChange blockId checked st in
      (st', effects b st' blockId r, [])
  end.

(** A run of events. *)
Fixpoint run (b : Dom.Browser) (blockId : string) (st : EditorStore)
    (r : Refs) (evs : list Event) : EditorStore * Refs :=
  match evs with
  | [] => (st, r)
  | ev :: evs' =>
      let '(st', r', _) := step b blockId st r ev in
      run b blockId st' r' evs'
  end.

(** The type of the block a split creates. *)
Definition splitType (t : BlockType) : BlockType :=
  match t with
  | TASK | QUOTE => PARAGRAPH
  | _ => t
  end.

(** The effect the design document gives for the Split intent on the
    block [blockId]: its content becomes [left], a block of the same type
    with content [right] follows it, and that block is the active one. *)
Definition isSplit (before after : EditorStore) (blockId : string)
    (left right : jsstring) : Prop :=
  exists pre b post new,
    blocks (document before) = pre ++ b :: post
    /\ id b = blockId
    /\ content b = left ++ right
    /\ blocks (document after)
       = pre ++ mkBlock (id b) (type b) left (properties b) :: new :: post
    /\ type new = splitType (type b)
    /\ content new = right
    /\ activeBlockId after = Some (id new).

(** The contents of the blocks, in document order. *)
Definition contents (st : EditorStore) : list jsstring :=
  map content (blocks (document st)).

(** A store for the examples: a column container with a nested paragraph
    and a nested task. *)
Definition exampleStore : EditorStore :=
  mkStore
    (mkDocument
       [mkBlock "c1" COLUMNS [] ∅;
        mkBlock "n1" PARAGRAPH (js "ABCD") ∅;
        mkBlock "t1" TASK (js "buy milk") {["color" := VString "red"]}])
    (Some "n1"%string).

Definition enter : Dom.KeyboardEvent := Dom.mkKeyboardEvent "Enter" false.

(** A browser for the examples: an ampersand is read back as the entity,
    as it is when it begins none, any other code unit as it was assigned;
    the caret is at the end of the content, and a line break there is a
    [br] element. *)
Definition exampleBrowser : Dom.Browser :=
  Dom.mkBrowser
    (flat_map (fun c => if N.eqb c (charCode "&") then js "&amp;" else [c]))
    (fun command html =>
       if String.eqb command "insertLineBreak" then html ++ js "<br>"
       else html)
    eq_refl.

End NestedBlock.

(** ** SortableBlock *)

Module SortableBlock.

(** What [useSortable] reports for a block. *)
Record Sortable : Type := mkSortable {
  isDragging : bool;
  isOver : bool;
  active : option string      (* [active?.id], the block being dragged *)
}.

(** [isOver && !isDragging && active?.id !== block.id] *)
Definition showDropIndicator (block : Store.Block) (s : Sortable) : bool :=
  isOver s && negb (isDragging s)
  && negb (match active s with
           | Some activeId => String.eqb activeId (Store.id block)
           | None => false
           end).

End SortableBlock.

(** ** The reorder engine *)

Module Reorder.

(** Modelled from the spec: the repository and the handler that ends a
    drag are not among the sources.  3: the blocks are kept in a flat
    mapping from id to block; the root order and the children of every
    container are sequences of ids; [parentId] is null for a root block. *)
Record Node : Type := mkNode {
  parentId : option string;
  children : list string
}.

Record Tree : Type := mkTree {
  arena : gmap string Node;
  rootOrder : list string
}.

Inductive Error : Type := NotFound | InvariantViolation.

(** The order sequence below [parent]; the root order for [None]. *)
Definition sequence (t : Tree) (parent : option string)
  : option (list string) :=
  match parent with
  | None => Some (rootOrder t)
  | Some p => children <$> arena t !! p
  end.

Definition setSequence (parent : option string) (ids : list string)
    (t : Tree) : Tree :=
  match parent with
  | None => mkTree (arena t) ids
  | Some p =>
      mkTree (alter (fun n => mkNode (parentId n) ids) p (arena t))
             (rootOrder t)
  end.

(** [a] is [b] or one of the blocks above [b]. *)
Fixpoint isAbove (fuel : nat) (t : Tree) (a b : string) : bool :=
  String.eqb a b
  || match fuel with
     | O => false
     | S fuel' =>
         match arena t !! b with
         | Some n =>
             match parentId n with
             | Some p => isAbove fuel' t a p
             | None => false
             end
         | None => false
         end
     end.

Definition removeId (x : string) (ids : list string) : list string :=
  List.filter (fun y => negb (String.eqb y x)) ids.

Definition insertAt (i : nat) (x : string) (ids : list string)
  : list string :=
  firstn i ids ++ x :: skipn i ids.

Fixpoint indexOf (x : string) (ids : list string) : option nat :=
  match ids with
  | [] => None
  | y :: ids' => if String.eqb y x then Some 0 else S <$> indexOf x ids'
  end.

(** Modelled from the spec: 4.1, [moveBlock(id, destinationParentId | null,
    destinationIndex)] removes [id] from its current order sequence and
    inserts it at the destination index; it fails with [NotFound] if [id]
    or the destination parent does not exist and with [InvariantViolation]
    if the destination parent is [id] or below it. *)
Definition moveBlock (id : string) (destinationParentId : option string)
    (destinationIndex : nat) (t : Tree) : Tree + Error :=
  match arena t !! id, sequence t destinationParentId with
  | Some node, Some _ =>
      if match destinationParentId with
         | Some p => isAbove (size (arena t)) t id p
         | None => false
         end
      then inr InvariantViolation
      else
        let t1 :=
          setSequence (parentId node)
            (removeId id (default [] (sequence t (parentId node)))) t in
        let t2 :=
          setSequence destinationParentId
            (insertAt destinationIndex id
               (default [] (sequence t1 destinationParentId))) t1 in
        inl (mkTree
               (alter (fun n => mkNode destinationParentId (children n))
                      id (arena t2))
               (rootOrder t2))
  | _, _ => inr NotFound
  end.

(** Modelled from the spec: 4.3, the gesture record: the source block, the
    block under the pointer, whether the pointer is in the top half of
    that block, and the horizontal offset of the pointer. *)
Record Gesture : Type := mkGesture {
  source : string;
  hovered : string;
  topHalf : bool;
  horizontalOffset : nat
}.

(** Modelled from the spec: 4.3, the resolution of a gesture into a
    [moveBlock] call or nothing.  A drop on the source itself is nothing;
    so is a drop on a block that no longer exists.  Over the child of a
    container the horizontal offset decides between the level of the
    container and the inside of it; the drop is above the block in the top
    half and below it otherwise. *)
Definition resolve (threshold : nat) (t : Tree) (g : Gesture)
  : option (string * option string * nat) :=
  if String.eqb (source g) (hovered g) then None
  else
    match arena t !! hovered g with
    | None => None
    | Some h =>
        let '(anchor, level) :=
          match parentId h with
          | Some container =>
              if horizontalOffset g <? threshold
              then (container,
                    match arena t !! container with
                    | Some c => parentId c
                    | None => None
                    end)
              else (hovered g, Some container)
          | None => (hovered g, None)
          end in
        match sequence t level with
        | None => None
        | Some ids =>
            match indexOf anchor (removeId (source g) ids) with
            | None => None
            | Some i =>
                Some (source g, level, if topHalf g then i else S i)
            end
        end
    end.

(** The tree after the pointer is released. *)
Definition release (threshold : nat) (t : Tree) (g : Gesture) : Tree :=
  match resolve threshold t g with
  | None => t
  | Some (id, parent, index) =>
      match moveBlock id parent index t with
      | inl t' => t'
      | inr _ => t
      end
  end.

(** The document of scenario 3: three root blocks. *)
Definition abc : Tree :=
  mkTree
    (list_to_map
       [("A"%string, mkNode None []); ("B"%string, mkNode None []);
        ("C"%string, mkNode None [])])
    ["A"; "B"; "C"]%string.

End Reorder.

(** ** useMobile *)

Module UseMobile.

Local Open Scope Z_scope.

(** [BREAKPOINTS] *)
Definition BREAKPOINTS_mobile : Z := 640.
Definition BREAKPOINTS_tablet : Z := 1024.

(** [{ width, height }], the dimensions of the window in pixels. *)
Record WindowSize : Type := mkWindowSize {
  width : Z;
  height : Z
}.

Definition isMobile (windowSize : WindowSize) : bool :=
  width windowSize <? BREAKPOINTS_mobile.

Definition isTablet (windowSize : WindowSize) : bool :=
  (BREAKPOINTS_mobile <=? width windowSize)
  && (width windowSize <? BREAKPOINTS_tablet).

Definition isDesktop (windowSize : WindowSize) : bool :=
  BREAKPOINTS_tablet <=? width windowSize.

(** The hook in a mounted component: the state [windowSize], whether the
    timer behind [timeoutId] is still to fire, and whether the resize
    listener is attached. *)
Record Hook : Type := mkHook {
  windowSize : WindowSize;
  pending : bool;
  listening : bool
}.

(** Mounting: the state starts from the dimensions of the window; the
    effect attaches the listener and calls [handleResize] once. *)
Definition mount (window : WindowSize) : Hook :=
  mkHook window true true.

(** [handleResize]: the pending timer is cleared and a new one is set. *)
Definition handleResize (h : Hook) : Hook :=
  mkHook (windowSize h) true (listening h).

(** What happens around the hook: the window takes new dimensions and the
    resize event fires; the timer runs out, and its callback stores the
    dimensions the window has then; the component is unmounted, and the
    cleanup clears the timer and removes the listener. *)
Inductive Event : Type :=
  | Resize (window : WindowSize)
  | Timeout
  | Unmount.

(** The window and the hook after an event. *)
Definition step (st : WindowSize * Hook) (ev : Event) : WindowSize * Hook :=
  let '(window, h) := st in
  match ev with
  | Resize window' =>
      (window', if listening h then handleResize h else h)
  | Timeout =>
      if pending h then (window, mkHook window false (listening h))
      else (window, h)
  | Unmount => (window, mkHook (windowSize h) false false)
  end.

Definition run (st : WindowSize * Hook) (evs : list Event)
  : WindowSize * Hook :=
  fold_left step evs st.

(** [useMediaQuery]: the state [matches] and the query whose change
    events the hook listens to. *)
Record MediaQuery : Type := mkMediaQuery {
  matches : bool;
  query : string
}.


(** The media query [q] changes to [now]: the handler of the hook runs if
    the hook listens to [q]. *)
Definition change (q : string) (now : bool)
    (st : (string -> bool) * MediaQuery) : (string -> bool) * MediaQuery :=
  let '(media, h) := st in
  (fun q' => if String.eqb q' q then now else media q',
   if String.eqb (query h) q then mkMediaQuery now (query h) else h).

End UseMobile.

(** ** Dialog *)

Module Dialog.

(** The props the key handlers read: [isOpen], [type], and whether
    [onConfirm] is given. *)
Record Props : Type := mkProps {
  isOpen : bool;
  type : string;
  hasOnConfirm : bool
}.

Inductive Call : Type := OnClose | OnConfirm.

(** [onConfirm?.()] *)
Definition confirm (props : Props) : list Call :=
  if hasOnConfirm props then [OnConfirm] else [].

(** [handleKeyDown], the listener on the window. *)
Definition handleKeyDown (props : Props) (e : Dom.KeyboardEvent)
  : list Call :=
  (if String.eqb (Dom.key e) "Escape" && isOpen props
   then [OnClose] else [])
  ++ (if String.eqb (Dom.key e) "Enter" && isOpen props
         && negb (String.eqb (type props) "prompt")
      then confirm props else []).

(** [onKeyDown] of the input of a prompt. *)
Definition inputKeyDown (props : Props) (e : Dom.KeyboardEvent)
  : list Call :=
  if String.eqb (Dom.key e) "Enter" then confirm props else [].

(** The input is rendered in an open dialog of type [prompt]. *)
Definition hasInput (props : Props) : bool :=
  isOpen props && String.eqb (type props) "prompt".

(** The key handlers a keydown event runs through: the handler of the
    input when the event starts there, then the listener on the window. *)
Definition keyHandlers (props : Props) (inInput : bool)
    (e : Dom.KeyboardEvent) : list Call :=
  (if inInput && hasInput props then inputKeyDown props e else [])
  ++ handleKeyDown props e.

End Dialog.

(** ** Sidebar *)

Module Sidebar.

Record Doc : Type := mkDoc {
  id : string;
  title : option jsstring        (* [undefined] when the field is missing *)
}.

(** [s] begins with [p]. *)
Fixpoint startsWith (p s : jsstring) : bool :=
  match p, s with
  | [], _ => true
  | _ :: _, [] => false
  | a :: p', b :: s' => N.eqb a b && startsWith p' s'
  end.

(** [s.includes(sub)] *)
Fixpoint includes (s sub : jsstring) : bool :=
  startsWith sub s
  || match s with
     | [] => false
     | _ :: s' => includes s' sub
     end.

Section Filter.

(** [String.prototype.toLowerCase], taken as it is. *)
Variable toLowerCase : jsstring -> jsstring.

(** [documents.filter((doc) =>
      doc.title.toLowerCase().includes(searchQuery.toLowerCase()))];
    [None] is the [TypeError] thrown for a document without a title. *)
Fixpoint filteredDocuments (documents : list Doc) (searchQuery : jsstring)
  : option (list Doc) :=
  match documents with
  | [] => Some []
  | doc :: documents' =>
      match title doc with
      | None => None
      | Some t =>
          let keep := includes (toLowerCase t) (toLowerCase searchQuery) in
          match filteredDocuments documents' searchQuery with
          | None => None
          | Some found => Some (if keep then doc :: found else found)
          end
      end
  end.

End Filter.

(** [lastSaved]: nothing, a value that is no date (its time is [NaN]), or
    a date with its time in milliseconds. *)
Inductive LastSaved : Type :=
  | NotSaved
  | InvalidDate
  | SavedAt (time : Z).

(** The decimal digits of a number that is not negative. *)
Definition digits (n : Z) : jsstring :=
  js (NilZero.string_of_uint (N.to_uint (Z.to_N n))).

(** [formatLastSaved]; [now] is [Date.now()], [None] is [null].  Times are
    whole numbers of milliseconds, so the quotients below are taken on the
    integers. *)
Definition formatLastSaved (now : Z) (lastSaved : LastSaved)
  : option jsstring :=
  match lastSaved with
  | NotSaved => None
  | InvalidDate => Some (js "NaNh ago")
  | SavedAt time =>
      let diff := (now - time)%Z in
      if (diff <? 60000)%Z then Some (js "Just now")
      else if (diff <? 3600000)%Z
           then Some (digits (diff / 60000) ++ js "m ago")
           else Some (digits (diff / 3600000) ++ js "h ago")
  end.

(** White space and line terminators, the code units [trim] removes. *)
Definition isWhiteSpace (c : codeUnit) : bool :=
  match c with
  | 9 | 10 | 11 | 12 | 13 | 32 | 160 | 5760
  | 8192 | 8193 | 8194 | 8195 | 8196 | 8197 | 8198 | 8199 | 8200 | 8201
  | 8202 | 8232 | 8233 | 8239 | 8287 | 12288 | 65279 => true
  | _ => false
  end%N.

Fixpoint trimStart (s : jsstring) : jsstring :=
  match s with
  | c :: s' => if isWhiteSpace c then trimStart s' else s
  | [] => []
  end.

(** [s.trim()] *)
Definition trim (s : jsstring) : jsstring :=
  rev (trimStart (rev (trimStart s))).

(** A [DocumentItem]: the prop [doc.title] and the state [isEditing],
    [editValue]. *)
Record Item : Type := mkItem {
  docTitle : option jsstring;
  isEditing : bool;
  editValue : jsstring
}.

(** The calls of an item: [onRename] with the argument it is given, none
    when it is called without one, and [preventDefault] on a key event. *)
Inductive Call : Type :=
  | OnRename (newTitle : option jsstring)
  | PreventDefault.

(** [doc.title || ""]: a missing and an empty title give the empty string. *)
Definition titleOrEmpty (it : Item) : jsstring :=
  match docTitle it with
  | Some t => t
  | None => []
  end.

(** [handleDoubleClick] *)
Definition handleDoubleClick (it : Item) : Item :=
  mkItem (docTitle it) true (titleOrEmpty it).

(** [handleSave] *)
Definition handleSave (it : Item) : Item * list Call :=
  let newTitle :=
    match trim (editValue it) with
    | [] => js "Untitled"
    | t => t
    end in
  (mkItem (docTitle it) false (editValue it),
   if decide (Some newTitle <> docTitle it)
   then [OnRename (Some newTitle)] else []).

(** [handleKeyDown] *)
Definition handleKeyDown (it : Item) (e : Dom.KeyboardEvent)
  : Item * list Call :=
  if String.eqb (Dom.key e) "Enter" then
    let '(it', calls) := handleSave it in (it', PreventDefault :: calls)
  else if String.eqb (Dom.key e) "Escape" then
    (mkItem (docTitle it) false (titleOrEmpty it), [])
  else (it, []).

(** What reaches an item: a double click on the title; while the title is
    edited, a change of the input, a key, the input losing the focus; a
    click on the entry Rename of the menu, when the sidebar shows the menu
    of this item; and a render with the document the sidebar passes then,
    under the title that whoever handles [onRenameDocument] has given it.
    The menu entry calls [onRename()] with no argument; a render with
    another title leaves the state of the item as it is. *)
Inductive Event : Type :=
  | DoubleClick
  | Change (value : jsstring)
  | KeyDown (e : Dom.KeyboardEvent)
  | Blur
  | MenuRename
  | Render (title : option jsstring).

Definition step (it : Item) (ev : Event) : Item * list Call :=
  match ev with
  | DoubleClick =>
      if isEditing it then (it, []) else (handleDoubleClick it, [])
  | Change value =>
      if isEditing it then (mkItem (docTitle it) true value, [])
      else (it, [])
  | KeyDown e => if isEditing it then handleKeyDown it e else (it, [])
  | Blur => if isEditing it then handleSave it else (it, [])
  | MenuRename => (it, [OnRename None])
  | Render title => (mkItem title (isEditing it) (editValue it), [])
  end.

(** The calls made in the course of a run of events. *)
Fixpoint run (it : Item) (evs : list Event) : Item * list Call :=
  match evs with
  | [] => (it, [])
  | ev :: evs' =>
      let '(it1, calls1) := step it ev in
      let '(it2, calls2) := run it1 evs' in
      (it2, calls1 ++ calls2)
  end.

End Sidebar.

(** * Properties *)

(** ** The matcher and the replace loop *)

Module RegExpFacts.

Import RegExp.

Section Facts.

Variable p : Pattern.
Hypothesis width_pos : 0 < width p.

Local Abbreviation d := (delim p).

Lemma lit_spec n s r : lit p n s = Some r <-> s = repeat d n ++ r.
Proof.
  revert s. induction n as [|n IH]; intros s; simpl.
  - split; [intros [= ->]; reflexivity | intros ->; reflexivity].
  - destruct s as [|c s']; [split; discriminate|].
    destruct (N.eqb_spec c d) as [->|Hne].
    + rewrite IH. split; [intros ->; reflexivity | intros [= ->]; reflexivity].
    + split; [discriminate | intros [= E _]; contradiction].
Qed.

Lemma lit_other c s : c <> d -> lit p (width p) (c :: s) = None.
Proof.
  intros Hne. destruct (width p) as [|w] eqn:E; [lia|]. simpl.
  destruct (N.eqb_spec c d); [contradiction | reflexivity].
Qed.

Lemma lit_nil : lit p (width p) [] = None.
Proof. destruct (width p) as [|w] eqn:E; [lia | reflexivity]. Qed.

Lemma closing_other cap c s : c <> d -> closing p cap (c :: s) = None.
Proof. intros Hne. unfold closing. now rewrite lit_other. Qed.

(** Backtracking never helps: the group ends where the run of code units
    other than [d] ends. *)
Lemma more_greedy s : forall cap,
  more p cap s = closing p (cap ++ fst (untilDelim p s)) (snd (untilDelim p s)).
Proof.
  induction s as [|c s IH]; intros cap; simpl.
  - now rewrite app_nil_r.
  - destruct (N.eqb_spec c d) as [->|Hne]; simpl.
    + now rewrite app_nil_r.
    + rewrite (closing_other cap c s Hne), IH.
      destruct (untilDelim p s) as [run rest]; simpl.
      rewrite <- app_assoc; simpl.
      now destruct (closing p (cap ++ c :: run) rest).
Qed.

Lemma untilDelim_spec s :
  s = fst (untilDelim p s) ++ snd (untilDelim p s)
  /\ Forall (fun c => c <> d) (fst (untilDelim p s)).
Proof.
  induction s as [|c s [IH1 IH2]]; simpl.
  - split; [reflexivity | constructor].
  - destruct (N.eqb_spec c d) as [->|Hne]; simpl.
    + split; [reflexivity | constructor].
    + destruct (untilDelim p s) as [run rest]; simpl in *.
      split; [now rewrite <- IH1 | now constructor].
Qed.

Lemma untilDelim_app a b :
  Forall (fun c => c <> d) a -> untilDelim p (a ++ d :: b) = (a, d :: b).
Proof.
  induction 1 as [|c a Hc _ IH]; simpl.
  - now rewrite N.eqb_refl.
  - destruct (N.eqb_spec c d); [contradiction|]. now rewrite IH.
Qed.

Lemma untilDelim_repeat a b :
  Forall (fun c => c <> d) a ->
  untilDelim p (a ++ repeat d (width p) ++ b) = (a, repeat d (width p) ++ b).
Proof.
  intros Ha. destruct (width p) as [|w]; [lia|]. simpl.
  now apply untilDelim_app.
Qed.

Lemma untilDelim_app_delim x y :
  untilDelim p (x ++ d :: y)
  = (fst (untilDelim p x), snd (untilDelim p x) ++ d :: y).
Proof.
  induction x as [|c x IH]; simpl.
  - now rewrite N.eqb_refl.
  - destruct (N.eqb c d); [reflexivity|].
    rewrite IH. now destruct (untilDelim p x).
Qed.

(** What a match at a position looks like. *)
Lemma matchAt_spec prev s cap rest :
  matchAt p prev s = Some (cap, rest) <->
  lookbehind p prev = true
  /\ s = repeat d (width p) ++ cap ++ repeat d (width p) ++ rest
  /\ cap <> []
  /\ Forall (fun c => c <> d) cap
  /\ lookahead p rest = true.
Proof.
  unfold matchAt. split.
  - destruct (lookbehind p prev); [|discriminate].
    destruct (lit p (width p) s) as [s1|] eqn:E1; [|discriminate].
    apply lit_spec in E1. unfold group.
    destruct s1 as [|c s1]; [discriminate|].
    destruct (N.eqb_spec c d) as [|Hne]; [discriminate|].
    rewrite more_greedy. destruct (untilDelim_spec s1) as [Hs1 Hrun].
    destruct (untilDelim p s1) as [run rest']; simpl in *.
    unfold closing. destruct (lit p (width p) rest') as [r|] eqn:E2;
      [|discriminate].
    apply lit_spec in E2.
    destruct (lookahead p r) eqn:E3; [|discriminate].
    intros [= <- <-]. subst. repeat split; auto.
  - intros (Hb & -> & Hne & Hall & Ha). rewrite Hb.
    assert (E1 : lit p (width p)
                   (repeat d (width p) ++ cap ++ repeat d (width p) ++ rest)
                 = Some (cap ++ repeat d (width p) ++ rest))
      by now apply lit_spec.
    rewrite E1. destruct cap as [|c cap]; [contradiction|].
    inversion Hall as [|? ? Hc Hcap]; subst. simpl.
    destruct (N.eqb_spec c d); [contradiction|].
    rewrite more_greedy, untilDelim_repeat by assumption. simpl.
    unfold closing.
    assert (E2 : lit p (width p) (repeat d (width p) ++ rest) = Some rest)
      by now apply lit_spec.
    rewrite E2, Ha. reflexivity.
Qed.

Lemma matchAt_nil prev : matchAt p prev [] = None.
Proof. unfold matchAt. rewrite lit_nil. now destruct (lookbehind p prev). Qed.

Lemma matchAt_shorter prev s cap rest :
  matchAt p prev s = Some (cap, rest) -> length rest < length s.
Proof.
  intros H. apply matchAt_spec in H. destruct H as (_ & -> & Hne & _).
  rewrite !length_app. destruct cap; [contradiction|]. simpl. lia.
Qed.

(** The scan of a string: an induction principle that follows the loop. *)
Lemma scan_ind (P : option codeUnit -> jsstring -> Prop) :
  (forall prev, P prev []) ->
  (forall prev c s,
      matchAt p prev (c :: s) = None -> P (Some c) s -> P prev (c :: s)) ->
  (forall prev s cap rest,
      matchAt p prev s = Some (cap, rest) -> P (Some d) rest -> P prev s) ->
  forall prev s, P prev s.
Proof.
  intros Hnil Hskip Hmatch prev s.
  remember (length s) as n eqn:En. revert prev s En.
  induction n as [n IH] using lt_wf_ind. intros prev s ->.
  destruct (matchAt p prev s) as [[cap rest]|] eqn:E.
  - apply (Hmatch _ _ _ _ E).
    apply (IH (length rest)); [now apply matchAt_shorter in E | reflexivity].
  - destruct s as [|c s]; [apply Hnil|].
    apply Hskip; [assumption|]. apply (IH (length s)); simpl; auto.
Qed.

Variable tpl : Template.

(** More turns than positions change nothing. *)
Lemma replaceLoop_fuel n : forall m prev s,
  length s < n -> length s < m ->
  replaceLoop p tpl n prev s = replaceLoop p tpl m prev s.
Proof.
  induction n as [|n IH]; intros m prev s Hn Hm; [lia|].
  destruct m as [|m]; [lia|]. simpl.
  destruct (matchAt p prev s) as [[cap rest]|] eqn:E.
  - apply matchAt_shorter in E.
    rewrite (IH m (Some d) rest) by lia. reflexivity.
  - destruct s as [|c s]; [reflexivity|]. simpl in *.
    rewrite (IH m (Some c) s) by lia. reflexivity.
Qed.

Lemma replaceFrom_nil prev : replaceFrom p tpl prev [] = [].
Proof. unfold replaceFrom. simpl. now rewrite matchAt_nil. Qed.

Lemma replaceFrom_skip prev c s :
  matchAt p prev (c :: s) = None ->
  replaceFrom p tpl prev (c :: s) = c :: replaceFrom p tpl (Some c) s.
Proof.
  intros E. unfold replaceFrom.
  change (replaceLoop p tpl (S (length (c :: s))) prev (c :: s))
    with (match matchAt p prev (c :: s) with
          | Some (cap, rest) =>
              before tpl ++ cap ++ after tpl
                ++ replaceLoop p tpl (length (c :: s)) (Some d) rest
          | None => c :: replaceLoop p tpl (length (c :: s)) (Some c) s
          end).
  rewrite E. reflexivity.
Qed.

Lemma replaceFrom_match prev s cap rest :
  matchAt p prev s = Some (cap, rest) ->
  replaceFrom p tpl prev s
  = before tpl ++ cap ++ after tpl ++ replaceFrom p tpl (Some d) rest.
Proof.
  intros E. unfold replaceFrom. simpl. rewrite E.
  apply matchAt_shorter in E.
  rewrite (replaceLoop_fuel (length s) (S (length rest))) by lia.
  reflexivity.
Qed.

(** Without a match the loop copies its input. *)
Lemma replaceFrom_id prev s :
  search p prev s = None -> replaceFrom p tpl prev s = s.
Proof.
  revert prev s. apply (scan_ind (fun prev s =>
    search p prev s = None -> replaceFrom p tpl prev s = s)).
  - intros prev _. apply replaceFrom_nil.
  - intros prev c s E IH Hs. simpl in Hs. rewrite E in Hs.
    rewrite replaceFrom_skip by assumption. now rewrite IH.
  - intros prev s cap rest E _ Hs.
    destruct s; simpl in Hs; rewrite E in Hs; discriminate.
Qed.

Lemma search_unfold prev s :
  search p prev s
  = match matchAt p prev s with
    | Some m => Some m
    | None =>
        match s with
        | c :: s' => search p (Some c) s'
        | [] => None
        end
    end.
Proof. now destruct s. Qed.

(** The code unit in front of a position, [pre] being what was scanned
    since the position behind [prev]. *)
Lemma last_scanned prev c (pre : jsstring) :
  match last (c :: pre) with Some x => Some x | None => prev end
  = match last pre with Some x => Some x | None => Some c end.
Proof. rewrite last_cons. now destruct (last pre). Qed.

(** A successful search has found a terminated pair. *)
Lemma search_found prev s m :
  search p prev s = Some m ->
  exists pre x post,
    s = pre ++ repeat d (width p) ++ x ++ repeat d (width p) ++ post
    /\ x <> [] /\ Forall (fun c => c <> d) x
    /\ lookbehind p (match last pre with Some c => Some c | None => prev end)
       = true
    /\ lookahead p post = true.
Proof.
  revert prev. induction s as [|c s IH]; intros prev; simpl.
  - now rewrite matchAt_nil.
  - destruct (matchAt p prev (c :: s)) as [[cap rest]|] eqn:E.
    + intros _. apply matchAt_spec in E.
      destruct E as (Hb & Hs & Hne & Hall & Ha).
      now exists [], cap, rest.
    + intros H. apply IH in H.
      destruct H as (pre & x & post & -> & Hne & Hall & Hb & Ha).
      exists (c :: pre), x, post. rewrite last_scanned.
      repeat split; auto.
Qed.

(** A terminated pair makes the search succeed. *)
Lemma found_search pre x post : forall prev,
  x <> [] -> Forall (fun c => c <> d) x ->
  lookbehind p (match last pre with Some c => Some c | None => prev end)
  = true ->
  lookahead p post = true ->
  search p prev
    (pre ++ repeat d (width p) ++ x ++ repeat d (width p) ++ post)
  <> None.
Proof.
  induction pre as [|c pre IH]; intros prev Hne Hall Hb Ha.
  - rewrite search_unfold. simpl in *.
    assert (E : matchAt p prev
                  (repeat d (width p) ++ x ++ repeat d (width p) ++ post)
                = Some (x, post)) by (apply matchAt_spec; auto).
    now rewrite E.
  - simpl.
    destruct (matchAt p prev (c :: pre ++ _)); [discriminate|].
    apply IH; auto. now rewrite last_scanned in Hb.
Qed.

Lemma search_terminated s : search p None s <> None <-> terminated p s.
Proof.
  split.
  - destruct (search p None s) as [m|] eqn:E; [intros _ | congruence].
    apply search_found in E.
    destruct E as (pre & x & post & -> & Hne & Hall & Hb & Ha).
    exists pre, x, post. repeat split; auto.
    now destruct (last pre).
  - intros (pre & x & post & -> & Hne & Hall & Hb & Ha).
    apply found_search; auto. now destruct (last pre).
Qed.

(** Where no delimiter stands, the code unit in front does not matter. *)
Lemma matchAt_other prev c s : c <> d -> matchAt p prev (c :: s) = None.
Proof.
  intros Hne. unfold matchAt. rewrite lit_other by assumption.
  now destruct (lookbehind p prev).
Qed.

Lemma replaceFrom_prev prev prev' s :
  head s <> Some d -> replaceFrom p tpl prev s = replaceFrom p tpl prev' s.
Proof.
  destruct s as [|c s]; intros H.
  - now rewrite !replaceFrom_nil.
  - assert (Hne : c <> d) by (intros ->; now apply H).
    now rewrite !replaceFrom_skip by now apply matchAt_other.
Qed.

(** The loop replaces terminated pairs and copies everything else. *)
Lemma replaceFrom_Copies prev s :
  Copies p tpl s (replaceFrom p tpl prev s).
Proof.
  revert prev s. apply (scan_ind (fun prev s =>
    Copies p tpl s (replaceFrom p tpl prev s))).
  - intros prev. rewrite replaceFrom_nil. constructor.
  - intros prev c s E IH. rewrite replaceFrom_skip by assumption.
    now constructor.
  - intros prev s cap rest E IH. rewrite (replaceFrom_match _ _ _ _ E).
    apply matchAt_spec in E. destruct E as (_ & -> & Hne & Hall & _).
    now constructor.
Qed.

Lemma Copies_refl s : Copies p tpl s s.
Proof. induction s; now constructor. Qed.


Lemma begins_matchAt prev s :
  begins p prev s <-> exists cap rest, matchAt p prev s = Some (cap, rest).
Proof.
  split.
  - intros (x & rest & E & Hne & Hall & Hb & Ha). exists x, rest.
    apply matchAt_spec. auto.
  - intros (cap & rest & E). apply matchAt_spec in E.
    destruct E as (Hb & E & Hne & Hall & Ha). exists cap, rest. auto.
Qed.

Lemma not_begins prev s : ~ begins p prev s <-> matchAt p prev s = None.
Proof.
  rewrite begins_matchAt. destruct (matchAt p prev s) as [[cap rest]|].
  - split; [|discriminate]. intros H. exfalso. apply H. eauto.
  - split; [reflexivity|]. intros _ (cap & rest & E). discriminate.
Qed.

(** The loop of [replace] is the one reading the relation allows. *)
Lemma Rewrites_replaceFrom prev s out :
  Rewrites p tpl prev s out <-> out = replaceFrom p tpl prev s.
Proof.
  split.
  - induction 1
      as [prev|prev c s out Hb _ IH|prev x rest out Hne Hall Hb Ha _ IH].
    + now rewrite replaceFrom_nil.
    + apply not_begins in Hb. rewrite replaceFrom_skip by exact Hb.
      now rewrite IH.
    + assert (E : matchAt p prev
                    (repeat d (width p) ++ x ++ repeat d (width p) ++ rest)
                  = Some (x, rest)) by (apply matchAt_spec; auto).
      rewrite (replaceFrom_match _ _ _ _ E). now rewrite IH.
  - intros ->. revert prev s. apply scan_ind.
    + intros prev. rewrite replaceFrom_nil. constructor.
    + intros prev c s E IH. rewrite replaceFrom_skip by exact E.
      constructor; [now apply not_begins | exact IH].
    + intros prev s cap rest E IH.
      rewrite (replaceFrom_match _ _ _ _ E).
      apply matchAt_spec in E.
      destruct E as (Hb & -> & Hne & Hall & Ha).
      now constructor.
Qed.

(** A match needs the delimiter twice. *)
Lemma delims_few prev s :
  count_occ N.eq_dec s d < 2 * width p -> search p prev s = None.
Proof.
  intros Hc. destruct (search p prev s) as [m|] eqn:E; [|reflexivity].
  apply search_found in E. destruct E as (pre & x & post & -> & _).
  rewrite !count_occ_app, !count_occ_repeat_eq in Hc by reflexivity. lia.
Qed.

Lemma count_free t :
  Forall (fun c => c <> d) t -> count_occ N.eq_dec t d = 0.
Proof.
  intros Ht. apply count_occ_not_In. intros Hin.
  rewrite List.Forall_forall in Ht. now apply (Ht d).
Qed.

Lemma last_repeat n : 0 < n -> last (repeat d n) = Some d.
Proof.
  destruct n as [|n]; [lia|]. intros _.
  rewrite <- Nat.add_1_r, repeat_app. simpl. apply last_snoc.
Qed.

Lemma matchAt_app prev s t cap rest :
  matchAt p prev s = Some (cap, rest) ->
  lookahead p (rest ++ t) = true ->
  matchAt p prev (s ++ t) = Some (cap, rest ++ t).
Proof.
  intros E Ha. apply matchAt_spec in E.
  destruct E as (Hb & -> & Hne & Hall & _).
  apply matchAt_spec. repeat split; auto. now rewrite <- !app_assoc.
Qed.

(** A match in [s ++ t] lies within [s], or its end lies in [t]. *)
Lemma matchAt_app_inv prev s t cap r :
  matchAt p prev (s ++ t) = Some (cap, r) ->
  (exists rest, r = rest ++ t /\ matchAt p prev s = Some (cap, rest))
  \/ (exists l,
        l <> []
        /\ repeat d (width p) ++ cap ++ repeat d (width p) = s ++ l
        /\ t = l ++ r).
Proof.
  intros E. apply matchAt_spec in E.
  destruct E as (Hb & E & Hne & Hall & Ha).
  assert (Hin : forall l,
            s = repeat d (width p) ++ cap ++ repeat d (width p) ++ l ->
            r = l ++ t -> matchAt p prev s = Some (cap, l)).
  { intros l E1 E2. apply matchAt_spec. repeat split; auto.
    subst r. destruct l as [|c l]; [|exact Ha].
    unfold lookahead. now destruct (guarded p). }
  rewrite !app_assoc in E. apply app_eq_app in E.
  destruct E as (l & [[E1 E2]|[E1 E2]]).
  - left. exists l. split; [exact E2|]. apply Hin; [|exact E2].
    now rewrite E1, <- !app_assoc.
  - destruct l as [|c l].
    + left. exists []. rewrite app_nil_r in E1. simpl in E2. subst t.
      split; [reflexivity|]. apply Hin; [|reflexivity].
      now rewrite <- E1, <- !app_assoc, app_nil_r.
    + right. exists (c :: l). split; [discriminate|].
      split; [|exact E2]. now rewrite <- E1, <- !app_assoc.
Qed.

Lemma search_any_prev prev s :
  search p None s = None -> search p prev s = None.
Proof.
  rewrite !(search_unfold _ s). unfold matchAt.
  assert (H : lookbehind p None = true)
    by (unfold lookbehind; now destruct (guarded p)).
  rewrite H. destruct (lookbehind p prev); [trivial|].
  destruct (lit p (width p) s) as [s1|]; [|trivial].
  now destruct (group p s1).
Qed.

Lemma repeat_ends (l : jsstring) :
  l <> [] -> l = repeat d (length l) ->
  head l = Some d /\ last l = Some d.
Proof.
  intros Hl E. rewrite E. split.
  - destruct l; [contradiction | reflexivity].
  - apply last_repeat. destruct l; [contradiction | simpl; lia].
Qed.

(** How a match can run beyond [s]: a run of the delimiter goes across
    the end of [s], or [s] is the opening delimiter and content. *)
Lemma overrun_cases s l cap :
  s <> [] -> l <> [] -> Forall (fun c => c <> d) cap ->
  repeat d (width p) ++ cap ++ repeat d (width p) = s ++ l ->
  (last s = Some d /\ head l = Some d)
  \/ (exists cap', s = repeat d (width p) ++ cap'
                   /\ Forall (fun c => c <> d) cap').
Proof.
  intros Hs Hl Hall E. apply app_eq_app in E.
  destruct E as (l1 & [[E1 E2]|[E1 E2]]).
  - destruct (repeat_eq_app _ _ _ _ E1) as [Es El1].
    destruct l1 as [|c1 l1].
    + right. exists []. rewrite app_nil_r in *. now split.
    + left. split.
      * apply repeat_ends; [exact Hs | now symmetry].
      * rewrite E2. simpl in *. now injection El1 as -> _.
  - apply app_eq_app in E2. destruct E2 as (l2 & [[E3 E4]|[E3 E4]]).
    + right. exists l1. split; [exact E1|].
      rewrite E3 in Hall. now apply Forall_app in Hall.
    + destruct (repeat_eq_app _ _ _ _ E4) as [El2 El].
      destruct l2 as [|c2 l2].
      * right. exists cap. rewrite app_nil_r in E3. now subst.
      * left. split.
        -- rewrite E1, E3, !last_app.
           assert (H : last (c2 :: l2) = Some d)
             by (apply repeat_ends; [discriminate | now symmetry]).
           now rewrite H.
        -- apply repeat_ends; [exact Hl | now symmetry].
Qed.

(** Text in which the pattern finds nothing, behind the input: it is
    copied, and nothing changes in front of it, unless a run of the
    delimiter goes across the boundary or the output for the input ends
    with an opening delimiter and content that the text could close. *)
Lemma replaceFrom_app_fixed t :
  search p None t = None ->
  forall prev a,
  (last a = Some d -> head t = Some d -> False) ->
  (forall u x, replaceFrom p tpl prev a = u ++ repeat d (width p) ++ x ->
               Forall (fun c => c <> d) x -> False) ->
  replaceFrom p tpl prev (a ++ t) = replaceFrom p tpl prev a ++ t.
Proof.
  intros Ht.
  apply (scan_ind (fun prev a =>
    (last a = Some d -> head t = Some d -> False) ->
    (forall u x, replaceFrom p tpl prev a = u ++ repeat d (width p) ++ x ->
                 Forall (fun c => c <> d) x -> False) ->
    replaceFrom p tpl prev (a ++ t) = replaceFrom p tpl prev a ++ t)).
  - intros prev _ _. rewrite replaceFrom_nil. simpl.
    apply replaceFrom_id. now apply search_any_prev.
  - intros prev c s E IH Hedge Hclosed.
    assert (E' : matchAt p prev ((c :: s) ++ t) = None).
    { destruct (matchAt p prev ((c :: s) ++ t)) as [[cap r]|] eqn:E';
        [|reflexivity].
      pose proof E' as Hspec. apply matchAt_spec in Hspec.
      destruct Hspec as (_ & _ & _ & Hall & _).
      apply matchAt_app_inv in E'.
      destruct E' as [(rest & _ & E')|(l & Hl & Em & Et)]; [congruence|].
      exfalso.
      destruct (overrun_cases (c :: s) l cap ltac:(discriminate) Hl Hall Em)
        as [[H1 H2]|(cap' & Es & Hcap')].
      + apply Hedge; [exact H1|]. rewrite Et.
        destruct l; [contradiction | exact H2].
      + apply (Hclosed [] cap'); [|exact Hcap'].
        rewrite Es. simpl. apply replaceFrom_id, delims_few.
        rewrite count_occ_app, count_occ_repeat_eq, count_free by auto.
        lia. }
    simpl in E'. simpl. rewrite replaceFrom_skip by exact E'.
    rewrite (replaceFrom_skip _ _ _ E) in *. simpl. f_equal.
    apply IH.
    + intros Hs. apply Hedge. rewrite last_cons. now rewrite Hs.
    + intros u x Eu Hx. apply (Hclosed (c :: u) x); [|exact Hx].
      simpl. now rewrite Eu.
  - intros prev s cap rest E IH Hedge Hclosed.
    pose proof E as Hspec. apply matchAt_spec in Hspec.
    destruct Hspec as (_ & Es & _ & _ & Ha).
    assert (Ha' : lookahead p (rest ++ t) = true).
    { destruct rest as [|c rest]; [|exact Ha]. simpl.
      unfold lookahead. destruct (guarded p); [|reflexivity].
      destruct t as [|c t']; [reflexivity|].
      apply negb_true_iff, N.eqb_neq. intros ->.
      apply Hedge; [|reflexivity]. rewrite Es, !last_app. simpl.
      now rewrite last_repeat by exact width_pos. }
    rewrite (replaceFrom_match _ _ _ _ (matchAt_app _ _ _ _ _ E Ha')).
    rewrite (replaceFrom_match _ _ _ _ E) in *.
    rewrite <- !app_assoc. do 3 f_equal.
    apply IH.
    + intros Hr. apply Hedge. rewrite Es, !last_app. now rewrite Hr.
    + intros u x Eu Hx.
      apply (Hclosed (before tpl ++ cap ++ after tpl ++ u) x);
        [|exact Hx].
      rewrite Eu. now rewrite <- !app_assoc.
Qed.

(** Code units other than the delimiter are never removed. *)
Lemma replaceFrom_keeps c : c <> d -> forall prev s,
  In c s -> In c (replaceFrom p tpl prev s).
Proof.
  intros Hc.
  apply (scan_ind (fun prev s =>
    In c s -> In c (replaceFrom p tpl prev s))).
  - intros prev H. now apply in_nil in H.
  - intros prev c0 s E IH Hin. rewrite replaceFrom_skip by exact E.
    destruct Hin as [->|Hin]; [now left | right; auto].
  - intros prev s cap rest E IH Hin. rewrite (replaceFrom_match _ _ _ _ E).
    apply matchAt_spec in E. destruct E as (_ & -> & _).
    apply in_app_or in Hin. destruct Hin as [Hin|Hin].
    { apply repeat_spec in Hin. contradiction. }
    apply in_app_or in Hin. destruct Hin as [Hin|Hin].
    { apply in_or_app. right. apply in_or_app. now left. }
    apply in_app_or in Hin. destruct Hin as [Hin|Hin].
    { apply repeat_spec in Hin. contradiction. }
    apply in_or_app. right. apply in_or_app. right.
    apply in_or_app. right. auto.
Qed.

Hypothesis template_longer :
  2 * width p < length (before tpl) + length (after tpl).

Lemma replaceFrom_length prev s :
  length s <= length (replaceFrom p tpl prev s).
Proof.
  revert prev s. apply (scan_ind (fun prev s =>
    length s <= length (replaceFrom p tpl prev s))).
  - intros prev. simpl. lia.
  - intros prev c s E IH. rewrite replaceFrom_skip by assumption.
    simpl. lia.
  - intros prev s cap rest E IH.
    rewrite (replaceFrom_match _ _ _ _ E).
    apply matchAt_spec in E. destruct E as (_ & -> & _).
    rewrite !length_app, !repeat_length. lia.
Qed.

(** With a match the result is longer than the input. *)
Lemma replaceFrom_grows prev s :
  search p prev s <> None ->
  length s < length (replaceFrom p tpl prev s).
Proof.
  revert prev s. apply (scan_ind (fun prev s =>
    search p prev s <> None ->
    length s < length (replaceFrom p tpl prev s))).
  - intros prev H. simpl in H. now rewrite matchAt_nil in H.
  - intros prev c s E IH Hs. simpl in Hs. rewrite E in Hs.
    rewrite replaceFrom_skip by assumption. simpl.
    apply IH in Hs. lia.
  - intros prev s cap rest E _ _.
    rewrite (replaceFrom_match _ _ _ _ E).
    pose proof (replaceFrom_length (Some d) rest) as Hl.
    apply matchAt_spec in E. destruct E as (_ & -> & _).
    rewrite !length_app, !repeat_length. lia.
Qed.

(** The output ends as the input does, or with the template. *)
Lemma replaceFrom_last c :
  last (after tpl) <> None -> last (after tpl) <> Some c ->
  forall prev s,
  last (replaceFrom p tpl prev s) = Some c -> last s = Some c.
Proof.
  intros Hsome Hc.
  apply (scan_ind (fun prev s =>
    last (replaceFrom p tpl prev s) = Some c -> last s = Some c)).
  - intros prev. now rewrite replaceFrom_nil.
  - intros prev c0 s E IH. rewrite replaceFrom_skip by exact E.
    rewrite !last_cons.
    destruct (last (replaceFrom p tpl (Some c0) s)) as [y|] eqn:El.
    + intros [= ->]. now rewrite IH.
    + apply last_None in El.
      pose proof (replaceFrom_length (Some c0) s) as Hl.
      rewrite El in Hl. destruct s; [|simpl in Hl; lia]. auto.
  - intros prev s cap rest E IH. rewrite (replaceFrom_match _ _ _ _ E).
    apply matchAt_spec in E. destruct E as (_ & -> & _).
    rewrite !last_app.
    destruct (last (replaceFrom p tpl (Some d) rest)) as [y|] eqn:El.
    + intros [= ->]. now rewrite IH.
    + destruct (last (after tpl)); [congruence | contradiction].
Qed.

End Facts.

End RegExpFacts.

(** ** The autoformatter *)

Module ParagraphBlockFacts.

Import RegExp RegExpFacts ParagraphBlock.

#[local] Arguments convertStep : simpl never.
#[local] Arguments replaceFrom : simpl never.
#[local] Arguments N.eqb : simpl never.

Lemma test_literal p s :
  fst (test (literal p) s)
  = match search p None s with Some _ => true | None => false end.
Proof.
  unfold test, literal; simpl. change (skipn 0 s) with s.
  now destruct (search p None s) as [[cap rest]|].
Qed.

Lemma matches_search p s : matches p s = false <-> search p None s = None.
Proof.
  unfold matches. rewrite test_literal.
  destruct (search p None s); split; congruence.
Qed.

Lemma test_source re s : source (snd (test re s)) = source re.
Proof.
  unfold test. destruct (length s <? lastIndex re); [reflexivity|].
  now destruct (search _ _ _) as [[cap rest]|].
Qed.

(** One statement of the body, without the object. *)
Lemma convertStep_result p tpl converted changed :
  fst (convertStep p tpl (converted, changed))
  = if matches p converted
    then (replaceFrom p tpl None converted, true)
    else (converted, changed).
Proof.
  unfold convertStep, matches.
  pose proof (test_source (literal p) converted) as Hs.
  destruct (test (literal p) converted) as [found re]; simpl in *.
  destruct found; [|reflexivity]. unfold replace. now rewrite Hs.
Qed.

Lemma convertInlineMarkdown_steps html :
  convertInlineMarkdown html
  = fst (convertStep codePattern codeTemplate
      (fst (convertStep strikePattern strikeTemplate
        (fst (convertStep italicPattern italicTemplate
          (fst (convertStep boldPattern boldTemplate (html, false)))))))).
Proof.
  unfold convertInlineMarkdown, body.
  destruct (convertStep boldPattern _ _) as [st1 o1]; simpl.
  destruct (convertStep italicPattern _ _) as [st2 o2]; simpl.
  destruct (convertStep strikePattern _ _) as [st3 o3]; simpl.
  now destruct (convertStep codePattern _ _) as [st4 o4].
Qed.

(** The function on some inputs. *)

Example bold_then_text :
  convertInlineMarkdown (js "**a**b**") = (js "<strong>a</strong>b**", true).
Proof. reflexivity. Qed.

Example three_asterisks :
  convertInlineMarkdown (js "***a***")
  = (js "<em><strong>a</strong></em>", true).
Proof. reflexivity. Qed.

Example asterisks_touching :
  convertInlineMarkdown (js "*a**b*") = (js "*a**b*", false).
Proof. reflexivity. Qed.

Example three_tildes :
  convertInlineMarkdown (js "~~~a~~") = (js "~<s>a</s>", true).
Proof. reflexivity. Qed.

Example code_around_asterisk :
  fst (convertInlineMarkdown (js "`*a`"))
  = before codeTemplate ++ js "*a" ++ after codeTemplate.
Proof. reflexivity. Qed.

Example plain_text :
  convertInlineMarkdown (js "no markup, 2 * 3 = 6") 
  = (js "no markup, 2 * 3 = 6", false).
Proof. reflexivity. Qed.

Example opening_only :
  convertInlineMarkdown (js "**bold") = (js "**bold", false)
  /\ convertInlineMarkdown (js "*it") = (js "*it", false)
  /\ convertInlineMarkdown (js "~~gone") = (js "~~gone", false)
  /\ convertInlineMarkdown (js "`code") = (js "`code", false).
Proof. repeat split. Qed.

Example opening_beside_pair :
  fst (convertInlineMarkdown (js "**a ~~b~~"))
  = js "**a " ++ before strikeTemplate ++ js "b" ++ after strikeTemplate.
Proof. reflexivity. Qed.

(** [test] leaves [lastIndex] behind the first match, [replace] at 0. *)
Example test_moves_lastIndex :
  test (literal boldPattern) (js "ab**c**d")
  = (true, mkRegExp boldPattern 7).
Proof. reflexivity. Qed.

Example test_from_lastIndex :
  fst (test (mkRegExp boldPattern 3) (js "ab**c**d")) = false.
Proof. reflexivity. Qed.

(** Every expression object a call has made is back at [lastIndex = 0]
    when the call returns. *)
Lemma body_objects html :
  snd (body html)
  = [literal boldPattern; literal italicPattern;
     literal strikePattern; literal codePattern].
Proof.
  assert (Hstep : forall p tpl st, snd (convertStep p tpl st) = literal p).
  { intros p tpl [converted changed]. unfold convertStep.
    pose proof (test_source (literal p) converted) as Hs.
    unfold test in *. simpl in *. change (skipn 0 converted) with converted in *.
    destruct (search p None converted) as [[cap rest]|]; reflexivity. }
  unfold body.
  pose proof (Hstep boldPattern boldTemplate (html, false)) as H1.
  destruct (convertStep boldPattern _ _) as [st1 o1].
  pose proof (Hstep italicPattern italicTemplate st1) as H2.
  destruct (convertStep italicPattern _ _) as [st2 o2].
  pose proof (Hstep strikePattern strikeTemplate st2) as H3.
  destruct (convertStep strikePattern _ _) as [st3 o3].
  pose proof (Hstep codePattern codeTemplate st3) as H4.
  destruct (convertStep codePattern _ _) as [st4 o4].
  simpl in *. now subst.
Qed.

Lemma Rule_width p tpl : Rule p tpl -> 0 < width p.
Proof. destruct 1; simpl; lia. Qed.

Lemma Rule_longer p tpl :
  Rule p tpl -> 2 * width p < length (before tpl) + length (after tpl).
Proof. destruct 1; vm_compute; lia. Qed.

#[local] Hint Constructors Rule : core.
#[local] Hint Resolve Rule_width Rule_longer : core.

(** A statement that does not find its pattern changes nothing. *)
Lemma convertStep_miss p tpl st :
  matches p (fst st) = false -> fst (convertStep p tpl st) = st.
Proof.
  destruct st as [converted changed]; simpl. intros H.
  now rewrite convertStep_result, H.
Qed.

(** A statement that finds it sets the flag and makes the string longer. *)
Lemma convertStep_hit p tpl st :
  Rule p tpl -> matches p (fst st) = true ->
  snd (fst (convertStep p tpl st)) = true
  /\ length (fst st) < length (fst (fst (convertStep p tpl st))).
Proof.
  destruct st as [converted changed]; simpl. intros R H.
  rewrite convertStep_result, H; simpl. split; [reflexivity|].
  apply replaceFrom_grows; eauto.
  intros E. apply matches_search in E. congruence.
Qed.

Lemma convertStep_tracked p tpl html st :
  Rule p tpl -> tracked html st -> tracked html (fst (convertStep p tpl st)).
Proof.
  intros R T. destruct (matches p (fst st)) eqn:M.
  - destruct (convertStep_hit p tpl st R M) as [Hc Hl].
    right. split; [assumption|]. destruct T as [[_ <-]|[_ T]]; lia.
  - now rewrite convertStep_miss.
Qed.

Lemma convertInlineMarkdown_tracked html :
  tracked html (convertInlineMarkdown html).
Proof.
  rewrite convertInlineMarkdown_steps.
  repeat (apply convertStep_tracked; [auto|]).
  left. split; reflexivity.
Qed.

(** Without the flag the input comes back. *)
Lemma unchanged_same html :
  snd (convertInlineMarkdown html) = false ->
  fst (convertInlineMarkdown html) = html.
Proof.
  destruct (convertInlineMarkdown_tracked html) as [[_ Hs]|[Hc _]];
    [auto | congruence].
Qed.

Lemma convertStep_keeps_flag p tpl st :
  snd st = true -> snd (fst (convertStep p tpl st)) = true.
Proof.
  destruct st as [converted changed]; simpl. intros ->.
  rewrite convertStep_result. now destruct (matches p converted).
Qed.

Lemma convertStep_unflagged p tpl st :
  Rule p tpl -> snd (fst (convertStep p tpl st)) = false ->
  matches p (fst st) = false /\ fst (convertStep p tpl st) = st.
Proof.
  intros R H. destruct (matches p (fst st)) eqn:M.
  - destruct (convertStep_hit p tpl st R M) as [Hc _]. congruence.
  - split; [reflexivity | now apply convertStep_miss].
Qed.

(** The strings the function returns as they are. *)
Lemma fixed_iff t :
  convertInlineMarkdown t = (t, false) <->
  matches boldPattern t = false /\ matches italicPattern t = false
  /\ matches strikePattern t = false /\ matches codePattern t = false.
Proof.
  rewrite convertInlineMarkdown_steps. split.
  - set (st1 := fst (convertStep boldPattern boldTemplate (t, false))).
    set (st2 := fst (convertStep italicPattern italicTemplate st1)).
    set (st3 := fst (convertStep strikePattern strikeTemplate st2)).
    intros H.
    destruct (convertStep_unflagged codePattern codeTemplate st3 rule_code)
      as [M4 E4]; [now rewrite H|].
    rewrite E4 in H.
    destruct (convertStep_unflagged strikePattern strikeTemplate st2
                rule_strike) as [M3 E3]; [fold st3; now rewrite H|].
    fold st3 in E3. rewrite E3 in H.
    destruct (convertStep_unflagged italicPattern italicTemplate st1
                rule_italic) as [M2 E2]; [fold st2; now rewrite H|].
    fold st2 in E2. rewrite E2 in H.
    destruct (convertStep_unflagged boldPattern boldTemplate (t, false)
                rule_bold) as [M1 E1]; [fold st1; now rewrite H|].
    rewrite E3, E2, H in M4. rewrite E2, H in M3. rewrite H in M2. auto.
  - intros (M1 & M2 & M3 & M4).
    rewrite (convertStep_miss boldPattern) by assumption.
    rewrite (convertStep_miss italicPattern) by assumption.
    rewrite (convertStep_miss strikePattern) by assumption.
    now rewrite (convertStep_miss codePattern) by assumption.
Qed.

(** C2.  On the input [**bold** and *it*alic] the function returns [bold]
    inside the bold markup, [it] inside the italic markup and the trailing
    [alic] as literal text, and reports a change. *)
Theorem scenario_autoformat :
  convertInlineMarkdown (js "**bold** and *it*alic")
  = (before boldTemplate ++ js "bold" ++ after boldTemplate
       ++ js " and "
       ++ before italicTemplate ++ js "it" ++ after italicTemplate
       ++ js "alic",
     true).
Proof. vm_compute. reflexivity. Qed.

(** C10.  The flag [changed] is true exactly when the returned string
    differs from the input; when it is false the input is returned code
    unit by code unit. *)
Theorem changed_iff_differs (html : jsstring) :
  (snd (convertInlineMarkdown html) = true
   <-> fst (convertInlineMarkdown html) <> html)
  /\ (snd (convertInlineMarkdown html) = false
      -> fst (convertInlineMarkdown html) = html).
Proof.
  destruct (convertInlineMarkdown_tracked html) as [[Hc Hs]|[Hc Hl]].
  - split; [|auto]. rewrite Hc, Hs. split; [discriminate | congruence].
  - split; [|congruence]. split; [|auto].
    intros _ E. rewrite E in Hl. lia.
Qed.

Lemma changed_iff_differs_witness :
  snd (convertInlineMarkdown (js "plain")) = false
  /\ fst (convertInlineMarkdown (js "plain")) = js "plain".
Proof.
  refine (conj eq_refl _).
  exact (proj2 (changed_iff_differs (js "plain")) eq_refl).
Defined.

(** C1, as stated, fails: bold around italic is converted in two rounds.
    The first call turns the inner pair into italic markup and leaves the
    outer asterisks, which the second call then turns into bold markup. *)
Lemma reformat_not_idempotent :
  let converted := fst (convertInlineMarkdown (js "**a*b*c**")) in
  converted = js "**a<em>b</em>c**"
  /\ convertInlineMarkdown converted
     = (js "<strong>a<em>b</em>c</strong>", true)
  /\ convertInlineMarkdown converted <> (converted, false).
Proof. vm_compute. repeat split. discriminate. Qed.

(** C1, amended.  A second call returns the output of the first unchanged,
    with [changed = false], exactly when none of the four expressions
    matches that output; this is so whenever the first call itself
    reported [changed = false]. *)
Theorem reformat_fixed (html : jsstring) :
  let converted := fst (convertInlineMarkdown html) in
  (convertInlineMarkdown converted = (converted, false) <->
   matches boldPattern converted = false
   /\ matches italicPattern converted = false
   /\ matches strikePattern converted = false
   /\ matches codePattern converted = false)
  /\ (snd (convertInlineMarkdown html) = false ->
      convertInlineMarkdown converted = (converted, false)).
Proof.
  intros converted. split; [apply fixed_iff|].
  intros Hc. pose proof (unchanged_same html Hc) as Hs.
  subst converted. rewrite Hs.
  destruct (convertInlineMarkdown html) as [c ch]; simpl in *. congruence.
Qed.

Lemma reformat_fixed_witness :
  let converted := fst (convertInlineMarkdown (js "**bold** and *it*alic")) in
  matches boldPattern converted = false
  /\ matches italicPattern converted = false
  /\ matches strikePattern converted = false
  /\ matches codePattern converted = false
  /\ convertInlineMarkdown converted = (converted, false).
Proof.
  intros converted.
  assert (H : matches boldPattern converted = false
              /\ matches italicPattern converted = false
              /\ matches strikePattern converted = false
              /\ matches codePattern converted = false)
    by (repeat split; reflexivity).
  destruct H as (H1 & H2 & H3 & H4).
  refine (conj H1 (conj H2 (conj H3 (conj H4 _)))).
  exact (proj2 (proj1 (reformat_fixed (js "**bold** and *it*alic")))
           (conj H1 (conj H2 (conj H3 H4)))).
Defined.

(** *** Repeated application

    Every call that reports a change has removed delimiter characters, so
    the calls made on the content of an element, one input event after the
    other, reach a string the function returns as it is. *)

Lemma delimiters_app a b : delimiters (a ++ b) = delimiters a + delimiters b.
Proof. unfold delimiters. now rewrite List.filter_app, length_app. Qed.

Lemma delimiters_cons c s :
  delimiters (c :: s) = (if isDelimiter c then 1 else 0) + delimiters s.
Proof. unfold delimiters. simpl. now destruct (isDelimiter c). Qed.

Lemma delimiters_repeat p tpl :
  Rule p tpl -> delimiters (repeat (delim p) (width p)) = width p.
Proof. destruct 1; reflexivity. Qed.

Lemma delimiters_template p tpl :
  Rule p tpl -> delimiters (before tpl) = 0 /\ delimiters (after tpl) = 0.
Proof. destruct 1; split; reflexivity. Qed.

Lemma replaceFrom_delimiters p tpl (R : Rule p tpl) prev s :
  delimiters (replaceFrom p tpl prev s) <= delimiters s
  /\ (search p prev s <> None ->
      delimiters (replaceFrom p tpl prev s) < delimiters s).
Proof.
  pose proof (Rule_width p tpl R) as Hw.
  destruct (delimiters_template p tpl R) as [Hb Ha].
  revert prev s. apply (scan_ind p Hw (fun prev s =>
    delimiters (replaceFrom p tpl prev s) <= delimiters s
    /\ (search p prev s <> None ->
        delimiters (replaceFrom p tpl prev s) < delimiters s))).
  - intros prev. rewrite (replaceFrom_nil p Hw). split; [lia|].
    simpl. now rewrite (matchAt_nil p Hw).
  - intros prev c s E [IH1 IH2]. rewrite replaceFrom_skip by assumption.
    rewrite !delimiters_cons. split; [lia|].
    intros Hs. simpl in Hs. rewrite E in Hs. apply IH2 in Hs. lia.
  - intros prev s cap rest E [IH1 _].
    rewrite (replaceFrom_match p Hw _ _ _ _ _ E).
    apply (matchAt_spec p Hw) in E. destruct E as (_ & -> & _).
    rewrite !delimiters_app, (delimiters_repeat p tpl R), Hb, Ha.
    split; [lia|]. intros _. lia.
Qed.

Lemma convertStep_delimiters p tpl html st :
  Rule p tpl ->
  (snd st = false /\ fst st = html)
  \/ (snd st = true /\ delimiters (fst st) < delimiters html) ->
  (snd (fst (convertStep p tpl st)) = false
   /\ fst (fst (convertStep p tpl st)) = html)
  \/ (snd (fst (convertStep p tpl st)) = true
      /\ delimiters (fst (fst (convertStep p tpl st))) < delimiters html).
Proof.
  intros R T. destruct st as [converted changed].
  rewrite convertStep_result. simpl in T.
  destruct (replaceFrom_delimiters p tpl R None converted) as [Hle Hlt].
  destruct (matches p converted) eqn:M; simpl; [|assumption].
  right. split; [reflexivity|].
  assert (Hs : search p None converted <> None).
  { intros Hs. apply matches_search in Hs. congruence. }
  specialize (Hlt Hs). destruct T as [[_ <-]|[_ T]]; lia.
Qed.

Lemma changed_removes_delimiters html :
  snd (convertInlineMarkdown html) = true ->
  delimiters (fst (convertInlineMarkdown html)) < delimiters html.
Proof.
  rewrite convertInlineMarkdown_steps. intros Hc.
  assert (T : (snd (html, false) = false /\ fst (html, false) = html)
              \/ (snd (html, false) = true
                  /\ delimiters (fst (html, false)) < delimiters html))
    by now left.
  apply (convertStep_delimiters boldPattern boldTemplate) in T; auto.
  apply (convertStep_delimiters italicPattern italicTemplate) in T; auto.
  apply (convertStep_delimiters strikePattern strikeTemplate) in T; auto.
  apply (convertStep_delimiters codePattern codeTemplate) in T; auto.
  destruct T as [[T _]|[_ T]]; [congruence | assumption].
Qed.

(** Applied again and again to its own output, the function reaches a
    string it returns unchanged, after no more calls than the input has
    delimiter characters. *)
Lemma reformat_settles html :
  exists n,
    n <= delimiters html
    /\ convertInlineMarkdown (iterate n html) = (iterate n html, false).
Proof.
  remember (delimiters html) as k eqn:Ek. revert html Ek.
  induction k as [k IH] using lt_wf_ind. intros html ->.
  destruct (snd (convertInlineMarkdown html)) eqn:Hc.
  - pose proof (changed_removes_delimiters html Hc) as Hlt.
    destruct (IH _ Hlt (fst (convertInlineMarkdown html)) eq_refl)
      as (n & Hn & Hfix).
    exists (S n). split; [lia | exact Hfix].
  - exists 0. split; [lia|]. simpl.
    pose proof (unchanged_same html Hc) as Hs.
    destruct (convertInlineMarkdown html) as [c ch]; simpl in *. congruence.
Qed.

Example settles_in_two :
  iterate 2 (js "**a*b*c**") = js "<strong>a<em>b</em>c</strong>"
  /\ convertInlineMarkdown (iterate 2 (js "**a*b*c**"))
     = (iterate 2 (js "**a*b*c**"), false).
Proof. split; reflexivity. Qed.

Lemma matches_terminated p tpl s :
  Rule p tpl -> matches p s = false <-> ~ terminated p s.
Proof.
  intros R. rewrite matches_search, <- search_terminated by eauto.
  destruct (search p None s); split; try congruence.
  intros H. exfalso. apply H. discriminate.
Qed.

Lemma pass_replaceFrom p tpl s :
  Rule p tpl -> pass p tpl s = replaceFrom p tpl None s.
Proof.
  intros R. unfold pass. rewrite convertStep_result.
  destruct (matches p s) eqn:M; simpl; [reflexivity|].
  symmetry. apply replaceFrom_id; [eauto|]. now apply matches_search.
Qed.

Lemma convertStep_pass p tpl st :
  fst (fst (convertStep p tpl st)) = pass p tpl (fst st).
Proof.
  destruct st as [converted changed]. unfold pass. cbn [fst].
  rewrite !convertStep_result. now destruct (matches p converted).
Qed.

Lemma converted_passes html :
  fst (convertInlineMarkdown html)
  = pass codePattern codeTemplate
      (pass strikePattern strikeTemplate
        (pass italicPattern italicTemplate
          (pass boldPattern boldTemplate html))).
Proof.
  rewrite convertInlineMarkdown_steps. now rewrite !convertStep_pass.
Qed.

Lemma pass_Copies p tpl s : Rule p tpl -> Copies p tpl s (pass p tpl s).
Proof.
  intros R. rewrite pass_replaceFrom by assumption.
  apply replaceFrom_Copies. eauto.
Qed.

(** *** Asterisks next to asterisks *)

Lemma italic_width : 0 < width italicPattern.
Proof. simpl. lia. Qed.

(** Two asterisks behind [a], which does not end in one: a match of the
    italic expression in front of them lies within [a]. *)
Lemma italic_matchAt_context prev a y :
  last a <> Some star ->
  matchAt italicPattern prev (a ++ star :: star :: y)
  = match matchAt italicPattern prev a with
    | Some (cap, rest) => Some (cap, rest ++ star :: star :: y)
    | None => None
    end.
Proof.
  intros Hlast. unfold matchAt.
  destruct (lookbehind italicPattern prev); [|reflexivity].
  destruct a as [|c [|c1 a]]; simpl.
  - reflexivity.
  - now destruct (N.eqb c star).
  - destruct (N.eqb c star); simpl; [|done].
    destruct (N.eqb c1 star); [reflexivity|].
    rewrite !(more_greedy italicPattern italic_width).
    pose proof (untilDelim_app_delim italicPattern a (star :: y)) as U.
    simpl in U. rewrite U. clear U.
    destruct (untilDelim_spec italicPattern a) as [Ha _].
    destruct (untilDelim italicPattern a) as [run rest]; simpl in *.
    unfold closing; simpl.
    destruct rest as [|r [|r2 rest]]; simpl.
    + done.
    + destruct (N.eqb_spec r star) as [->|]; [|done].
      exfalso. apply Hlast. subst a.
      now rewrite !last_cons, last_snoc.
    + destruct (N.eqb r star); [|done].
      unfold lookahead; simpl. now destruct (N.eqb r2 star).
Qed.

(** A run of asterisks behind an asterisk is copied. *)
Lemma italic_run_copied n s :
  replaceFrom italicPattern italicTemplate (Some star) (repeat star n ++ s)
  = repeat star n
      ++ replaceFrom italicPattern italicTemplate (Some star) s.
Proof.
  induction n as [|n IH]; [reflexivity|]. simpl.
  rewrite replaceFrom_skip by reflexivity. now rewrite IH.
Qed.

Lemma italic_runs prev a n b :
  last a <> Some star -> head b <> Some star ->
  replaceFrom italicPattern italicTemplate prev
    (a ++ repeat star (S (S n)) ++ b)
  = replaceFrom italicPattern italicTemplate prev a
      ++ repeat star (S (S n))
      ++ replaceFrom italicPattern italicTemplate None b.
Proof.
  intros Hlast Hb. revert prev a Hlast.
  apply (scan_ind italicPattern italic_width (fun prev a =>
    last a <> Some star ->
    replaceFrom italicPattern italicTemplate prev
      (a ++ repeat star (S (S n)) ++ b)
    = replaceFrom italicPattern italicTemplate prev a
        ++ repeat star (S (S n))
        ++ replaceFrom italicPattern italicTemplate None b)).
  - intros prev _.
    rewrite (replaceFrom_nil _ italic_width). simpl.
    rewrite replaceFrom_skip.
    + pose proof (italic_run_copied (S n) b) as R. simpl in R.
      rewrite R.
      now rewrite (replaceFrom_prev _ italic_width
                     italicTemplate (Some star) None b Hb).
    + unfold matchAt. simpl.
      now destruct (lookbehind italicPattern prev).
  - intros prev c a E IH Hlast.
    assert (Hlast' : last a <> Some star).
    { intros H. apply Hlast. rewrite last_cons. now rewrite H. }
    change ((c :: a) ++ repeat star (S (S n)) ++ b)
      with ((c :: a) ++ star :: star :: repeat star n ++ b).
    rewrite (replaceFrom_skip _ _ prev c
               (a ++ star :: star :: repeat star n ++ b)).
    + rewrite (replaceFrom_skip _ _ prev c a) by assumption.
      simpl. f_equal. now apply IH.
    + change (c :: a ++ star :: star :: repeat star n ++ b)
        with ((c :: a) ++ star :: star :: repeat star n ++ b).
      now rewrite italic_matchAt_context, E.
  - intros prev a cap rest E IH Hlast.
    assert (Hlast' : last rest <> Some star).
    { apply (matchAt_spec _ italic_width) in E.
      destruct E as (_ & -> & _). simpl in Hlast.
      intros H. apply Hlast.
      change (star :: cap ++ star :: rest)
        with ((star :: cap) ++ star :: rest).
      rewrite last_app, last_cons. now rewrite H. }
    rewrite (replaceFrom_match _ italic_width _ _ _ _ _ E).
    rewrite (replaceFrom_match _ italic_width _ prev
               (a ++ repeat star (S (S n)) ++ b) cap
               (rest ++ repeat star (S (S n)) ++ b)).
    + rewrite (IH Hlast'). now rewrite <- !app_assoc.
    + change (repeat star (S (S n)) ++ b)
        with (star :: star :: repeat star n ++ b).
      now rewrite italic_matchAt_context, E.
Qed.

(** C6, as stated, fails: in the input of three asterisks, a letter and
    three asterisks every asterisk stands next to another one, and yet the
    outer pair is converted to italic.  The bold pass has replaced the
    inner two pairs by then, and the italic expression sees the asterisk
    that is left on either side next to a tag. *)
Lemma italic_next_to_asterisk_converted :
  let html := js "***a***" in
  (forall i, nth_error html i = Some star ->
             charBefore i html = Some star
             \/ nth_error html (S i) = Some star)
  /\ pass boldPattern boldTemplate html = js "*<strong>a</strong>*"
  /\ convertInlineMarkdown html = (js "<em><strong>a</strong></em>", true).
Proof.
  split; [|split; reflexivity].
  intros i Hi.
  do 7 (destruct i as [|i]; [vm_compute in Hi |- *;
                             first [discriminate | auto] |]).
  destruct i; discriminate.
Qed.

(** C6, amended.  Adjacency is judged on the string the italic pass
    receives, which is the input after the bold replacement, not the input
    itself.  The italic expression matches a pair of single asterisks only
    where neither of them stands next to a further asterisk of that
    string; asterisks in a run of two or more, such as the delimiters of a
    bold span left unconverted, are therefore copied by the italic pass,
    which treats the text on either side of the run on its own; and the
    bold pass comes before the italic pass. *)
Theorem italic_not_next_to_asterisk :
  (forall prev s cap rest,
      matchAt italicPattern prev s = Some (cap, rest) ->
      prev <> Some star
      /\ s = star :: cap ++ star :: rest
      /\ cap <> [] /\ Forall (fun c => c <> star) cap
      /\ head rest <> Some star)
  /\ (forall a n b,
        2 <= n -> last a <> Some star -> head b <> Some star ->
        pass italicPattern italicTemplate (a ++ repeat star n ++ b)
        = pass italicPattern italicTemplate a
            ++ repeat star n
            ++ pass italicPattern italicTemplate b)
  /\ (forall html,
        fst (convertInlineMarkdown html)
        = pass codePattern codeTemplate
            (pass strikePattern strikeTemplate
              (pass italicPattern italicTemplate
                (pass boldPattern boldTemplate html)))).
Proof.
  split; [|split].
  - intros prev s cap rest E.
    apply (matchAt_spec italicPattern italic_width) in E.
    destruct E as (Hb & -> & Hne & Hall & Ha).
    repeat split; auto.
    + intros ->. simpl in Hb. discriminate.
    + destruct rest as [|c rest]; [discriminate|].
      intros [= ->]. simpl in Ha. discriminate.
  - intros a n b Hn Hlast Hb.
    rewrite !pass_replaceFrom by auto.
    destruct n as [|[|n]]; [lia | lia |].
    now apply italic_runs.
  - apply converted_passes.
Qed.

Lemma italic_not_next_to_asterisk_witness :
  matchAt italicPattern (Some (charCode " ")) (js "*it*alic")
    = Some (js "it", js "alic")
  /\ (Some (charCode " ") <> Some star /\ head (js "alic") <> Some star)
  /\ 2 <= 2 /\ last (js "x") <> Some star /\ head (js "bold**") <> Some star
  /\ pass italicPattern italicTemplate (js "x" ++ repeat star 2 ++ js "bold**")
     = pass italicPattern italicTemplate (js "x")
         ++ repeat star 2
         ++ pass italicPattern italicTemplate (js "bold**").
Proof.
  assert (H1 : matchAt italicPattern (Some (charCode " ")) (js "*it*alic")
               = Some (js "it", js "alic")) by reflexivity.
  assert (H2 : 2 <= 2) by lia.
  assert (H3 : last (js "x") <> Some star) by discriminate.
  assert (H4 : head (js "bold**") <> Some star) by discriminate.
  destruct (proj1 italic_not_next_to_asterisk _ _ _ _ H1)
    as (Hb & _ & _ & _ & Ha).
  refine (conj H1 (conj (conj Hb Ha) (conj H2 (conj H3 (conj H4 _))))).
  exact (proj1 (proj2 italic_not_next_to_asterisk) _ _ _ H2 H3 H4).
Defined.

(** *** An opening delimiter among terminated pairs *)

Lemma delimiters_none s :
  delimiters s = 0 -> Forall (fun c => isDelimiter c = false) s.
Proof.
  induction s as [|c s IH]; [constructor|].
  rewrite delimiters_cons. destruct (isDelimiter c) eqn:Ec; [discriminate|].
  intros H. constructor; auto.
Qed.

Lemma delimiters_In c s : isDelimiter c = true -> In c s -> 0 < delimiters s.
Proof.
  intros Hc Hin. destruct (delimiters s) eqn:E; [|lia].
  apply delimiters_none in E. rewrite List.Forall_forall in E.
  apply E in Hin. congruence.
Qed.

(** No template ends with a delimiter character. *)
Lemma Rule_after p tpl q tplq :
  Rule p tpl -> Rule q tplq ->
  last (after tplq) <> None /\ last (after tplq) <> Some (delim p).
Proof. destruct 1, 1; split; vm_compute; discriminate. Qed.

Lemma pass_last p tpl q tplq a :
  Rule p tpl -> Rule q tplq ->
  last a <> Some (delim p) -> last (pass q tplq a) <> Some (delim p).
Proof.
  intros R Rq Ha H. apply Ha. rewrite pass_replaceFrom in H by exact Rq.
  destruct (Rule_after p tpl q tplq R Rq) as [H1 H2].
  eapply replaceFrom_last; eauto.
Qed.

Lemma pass_keeps q tplq c s :
  Rule q tplq -> c <> delim q -> In c s -> In c (pass q tplq s).
Proof.
  intros Rq Hc Hin. rewrite pass_replaceFrom by exact Rq.
  apply replaceFrom_keeps; eauto.
Qed.

Lemma trailing_run (u : jsstring) :
  exists u0 j, u = u0 ++ repeat star j /\ last u0 <> Some star.
Proof.
  induction u as [|c u IH] using rev_ind.
  - exists [], 0. split; [reflexivity | discriminate].
  - destruct (N.eq_dec c star) as [->|Hc].
    + destruct IH as (u0 & j & -> & Hl). exists u0, (S j). split; [|exact Hl].
      rewrite <- app_assoc. f_equal.
      change [star] with (repeat star 1). rewrite <- repeat_app.
      f_equal. lia.
    + exists (u ++ [c]), 0. rewrite app_nil_r. split; [reflexivity|].
      rewrite last_snoc. congruence.
Qed.

(** Two asterisks side by side outlive the italic pass. *)
Lemma italic_keeps_run u x :
  Forall (fun c => c <> star) x ->
  In star (pass italicPattern italicTemplate (u ++ repeat star 2 ++ x)).
Proof.
  intros Hx. rewrite pass_replaceFrom by auto.
  destruct (trailing_run u) as (u0 & j & -> & Hl).
  rewrite <- app_assoc, (app_assoc (repeat star j)), <- repeat_app.
  replace (j + 2) with (S (S j)) by lia.
  rewrite italic_runs; [|exact Hl|].
  - apply in_or_app. right. now left.
  - destruct Hx as [|c x Hc _]; [discriminate|]. simpl. congruence.
Qed.

(** One pass in front of a text in which its pattern finds nothing. *)
Lemma pass_app_fixed q tplq a t :
  Rule q tplq ->
  matches q t = false ->
  (last a = Some (delim q) -> head t = Some (delim q) -> False) ->
  (forall u x, pass q tplq a = u ++ repeat (delim q) (width q) ++ x ->
               Forall (fun c => c <> delim q) x -> False) ->
  pass q tplq (a ++ t) = pass q tplq a ++ t.
Proof.
  intros Rq Hm Hedge Hclosed.
  rewrite !pass_replaceFrom in * by exact Rq.
  apply replaceFrom_app_fixed; eauto.
  now apply matches_search.
Qed.

Lemma In_opening (d : codeUnit) w u x : 0 < w -> In d (u ++ repeat d w ++ x).
Proof.
  intros Hw. apply in_or_app. right. apply in_or_app. left.
  destruct w; [lia | now left].
Qed.

(** The flag of a call whose output is known. *)
Lemma changed_of_output html out flag :
  tracked html (out, flag) ->
  flag = if decide (out = html) then false else true.
Proof.
  intros [[Hf Ho]|[Hf Hl]]; simpl in *; subst.
  - now rewrite decide_True.
  - rewrite decide_False; [reflexivity|]. intros ->. lia.
Qed.

(** A text in which no pattern finds anything, behind a text whose own
    pairs are all terminated, with no run of a delimiter character across
    the boundary: it is left as it is, and what stands in front of it is
    converted as it is on its own. *)
Lemma fixed_behind_pairs pre t :
  (forall q tplq, Rule q tplq ->
     last pre = Some (delim q) -> head t = Some (delim q) -> False) ->
  delimiters (fst (convertInlineMarkdown pre)) = 0 ->
  convertInlineMarkdown t = (t, false) ->
  convertInlineMarkdown (pre ++ t)
  = (fst (convertInlineMarkdown pre) ++ t, snd (convertInlineMarkdown pre)).
Proof.
  intros Hedge Hpre Ht. apply fixed_iff in Ht.
  destruct Ht as (M1 & M2 & M3 & M4).
  assert (Hfst : fst (convertInlineMarkdown (pre ++ t))
                 = fst (convertInlineMarkdown pre) ++ t).
  { rewrite !converted_passes in *.
    set (a1 := pass boldPattern boldTemplate pre) in *.
    set (a2 := pass italicPattern italicTemplate a1) in *.
    set (a3 := pass strikePattern strikeTemplate a2) in *.
    set (a4 := pass codePattern codeTemplate a3) in *.
    assert (K4 : forall c, isDelimiter c = true -> ~ In c a4).
    { intros c Hc Hin. apply (delimiters_In c a4 Hc) in Hin. lia. }
    assert (K3 : forall c, isDelimiter c = true -> c <> backtick ->
                           ~ In c a3).
    { intros c Hc Hne Hin. apply (K4 c Hc).
      apply pass_keeps; [apply rule_code | exact Hne | exact Hin]. }
    assert (K2 : ~ In star a2).
    { intros Hin. apply (K3 star); [reflexivity | discriminate |].
      apply pass_keeps; [apply rule_strike | discriminate | exact Hin]. }
    assert (K1 : forall u x, a1 = u ++ repeat star 2 ++ x ->
                             Forall (fun c => c <> star) x -> False).
    { intros u x E Hx. apply K2. unfold a2. rewrite E.
      now apply italic_keeps_run. }
    assert (L : forall q tplq a,
              Rule q tplq ->
              (last a = Some (delim q) -> last pre = Some (delim q)) ->
              last a = Some (delim q) -> head t = Some (delim q) -> False).
    { intros q tplq a Rq Ha Hl Hh. apply (Hedge q tplq Rq); auto. }
    assert (P : forall q tplq r tplr a,
              Rule q tplq -> Rule r tplr ->
              last (pass r tplr a) = Some (delim q) ->
              last a = Some (delim q)).
    { intros q tplq r tplr a Rq Rr Hl.
      destruct (decide (last a = Some (delim q))) as [E|E]; [exact E|].
      exfalso. now apply (pass_last q tplq r tplr a Rq Rr E). }
    rewrite (pass_app_fixed boldPattern boldTemplate pre t); auto.
    2: { apply (L _ _ _ rule_bold). auto. }
    fold a1.
    rewrite (pass_app_fixed italicPattern italicTemplate a1 t); auto.
    2: { apply (L _ _ _ rule_italic). intros H.
         now apply (P _ _ _ _ _ rule_italic rule_bold) in H. }
    2: { intros u x E Hx. apply K2. fold a2 in E. rewrite E.
         apply In_opening; cbn; lia. }
    fold a2.
    rewrite (pass_app_fixed strikePattern strikeTemplate a2 t); auto.
    2: { apply (L _ _ _ rule_strike). intros H.
         apply (P _ _ _ _ _ rule_strike rule_italic) in H.
         now apply (P _ _ _ _ _ rule_strike rule_bold) in H. }
    2: { intros u x E Hx. apply (K3 tilde); [reflexivity|discriminate|].
         fold a3 in E. rewrite E. apply In_opening; cbn; lia. }
    fold a3.
    rewrite (pass_app_fixed codePattern codeTemplate a3 t); auto.
    - apply (L _ _ _ rule_code). intros H.
      apply (P _ _ _ _ _ rule_code rule_strike) in H.
      apply (P _ _ _ _ _ rule_code rule_italic) in H.
      now apply (P _ _ _ _ _ rule_code rule_bold) in H.
    - intros u x E Hx. apply (K4 backtick); [reflexivity|].
      fold a4 in E. rewrite E. apply In_opening; cbn; lia. }
  pose proof (convertInlineMarkdown_tracked pre) as T1.
  pose proof (convertInlineMarkdown_tracked (pre ++ t)) as T2.
  destruct (convertInlineMarkdown pre) as [out1 flag1].
  destruct (convertInlineMarkdown (pre ++ t)) as [out2 flag2].
  simpl in *. subst out2.
  apply changed_of_output in T1, T2. rewrite T1, T2. f_equal.
  destruct (decide (out1 = pre)) as [->|Hne].
  - now rewrite decide_True.
  - rewrite decide_False; [reflexivity|].
    intros E. apply app_inv_tail in E. contradiction.
Qed.

(** An opening delimiter with no matching closing pair, behind a text
    whose own pairs are all terminated. *)
Lemma opening_behind_pairs p tpl pre post :
  Rule p tpl ->
  last pre <> Some (delim p) ->
  delimiters (fst (convertInlineMarkdown pre)) = 0 ->
  convertInlineMarkdown (repeat (delim p) (width p) ++ post)
  = (repeat (delim p) (width p) ++ post, false) ->
  convertInlineMarkdown (pre ++ repeat (delim p) (width p) ++ post)
  = (fst (convertInlineMarkdown pre) ++ repeat (delim p) (width p) ++ post,
     snd (convertInlineMarkdown pre)).
Proof.
  intros R Hlast Hpre Ht. apply fixed_behind_pairs; auto.
  intros q tplq Rq Hl Hh. apply Hlast. rewrite Hl.
  destruct R; simpl in Hh; symmetry; exact Hh.
Qed.

Example opening_behind_pair :
  convertInlineMarkdown (js "*a* **b*") = (js "<em>a</em> **b*", true).
Proof.
  exact (opening_behind_pairs boldPattern boldTemplate (js "*a* ") (js "b*")
           rule_bold ltac:(discriminate) eq_refl eq_refl).
Qed.

(** The statement on an object that nothing else refers to. *)
Lemma testAt_new h re s :
  testAt (length h) s (h ++ [re])
  = Some (fst (test re s), h ++ [snd (test re s)]).
Proof.
  unfold testAt. rewrite list_lookup_middle by reflexivity.
  destruct (test re s) as [found re']; simpl.
  rewrite insert_app_r_alt by lia. now rewrite Nat.sub_diag.
Qed.

Lemma replaceAt_new h re s tpl :
  replaceAt s (length h) tpl (h ++ [re])
  = Some (fst (replace s re tpl), h ++ [snd (replace s re tpl)]).
Proof.
  unfold replaceAt. rewrite list_lookup_middle by reflexivity. simpl.
  rewrite insert_app_r_alt by lia. now rewrite Nat.sub_diag.
Qed.

Lemma statement_new h re tpl st :
  statement (length h) tpl st (h ++ [re])
  = let '(converted, changed) := st in
    let '(found, re) := test re converted in
    if found then
      let '(converted, re) := replace converted re tpl in
      Some ((converted, true), h ++ [re])
    else Some ((converted, changed), h ++ [re]).
Proof.
  destruct st as [converted changed]. unfold statement.
  rewrite testAt_new. destruct (test re converted) as [found re']; simpl.
  destruct found; [|reflexivity].
  rewrite replaceAt_new. reflexivity.
Qed.

(** A declaration and its statement do on the heap what [convertStep]
    says, and touch no object but the new one. *)
Lemma declare_convertStep p tpl st h :
  declare p tpl st h
  = Some (fst (convertStep p tpl st), h ++ [snd (convertStep p tpl st)]).
Proof.
  unfold declare, new. rewrite statement_new.
  destruct st as [converted changed]. unfold convertStep.
  destruct (test (literal p) converted) as [found re'].
  destruct found; [|reflexivity].
  destruct (replace converted re' tpl) as [converted' re'']. reflexivity.
Qed.

Lemma invoke_body html h :
  invoke html h = Some (convertInlineMarkdown html, h ++ snd (body html)).
Proof.
  unfold invoke, convertInlineMarkdown, body.
  rewrite declare_convertStep.
  destruct (convertStep boldPattern _ _) as [st1 o1]; simpl.
  rewrite declare_convertStep.
  destruct (convertStep italicPattern _ _) as [st2 o2]; simpl.
  rewrite declare_convertStep.
  destruct (convertStep strikePattern _ _) as [st3 o3]; simpl.
  rewrite declare_convertStep.
  destruct (convertStep codePattern _ _) as [st4 o4]; simpl.
  now rewrite <- !app_assoc.
Qed.

Lemma session_results inputs : forall heap,
  exists heap',
    session heap inputs = Some (map convertInlineMarkdown inputs, heap')
    /\ heap `prefix_of` heap'.
Proof.
  induction inputs as [|html inputs IH]; intros heap; simpl.
  - exists heap. split; reflexivity.
  - rewrite invoke_body. simpl.
    destruct (IH (heap ++ snd (body html))) as (heap' & -> & Hp). simpl.
    exists heap'. split; [reflexivity|].
    etransitivity; [|exact Hp]. now apply prefix_app_r.
Qed.

(** An object that is shared is another matter: [test] starts at the
    [lastIndex] it finds.  The statement on an object left behind a match
    by some other [test] misses the pair in front of it. *)
Example statement_on_used_object :
  statement 0 boldTemplate (js "**a**", false) [mkRegExp boldPattern 5]
  = Some ((js "**a**", false), [mkRegExp boldPattern 0])
  /\ statement 0 boldTemplate (js "**a**", false) [mkRegExp boldPattern 0]
     = Some ((js "<strong>a</strong>", true), [mkRegExp boldPattern 0]).
Proof. split; reflexivity. Qed.

(** The statement leaves the object as a literal makes it, so even an
    object used by one call after the other would carry nothing over. *)
Lemma statement_restores r p tpl st h :
  h !! r = Some (literal p) ->
  statement r tpl st h = Some (fst (convertStep p tpl st), h).
Proof.
  intros Hr. destruct st as [converted changed].
  unfold statement, testAt, replaceAt, convertStep. rewrite Hr.
  pose proof (test_source (literal p) converted) as Hs.
  assert (H0 : fst (test (literal p) converted) = false ->
               snd (test (literal p) converted) = literal p).
  { unfold test, literal; simpl. change (skipn 0 converted) with converted.
    now destruct (search p None converted) as [[cap rest]|]. }
  destruct (test (literal p) converted) as [found re']; simpl in *.
  destruct found; simpl.
  - rewrite list_lookup_insert_eq by (now apply lookup_lt_Some in Hr).
    simpl. rewrite list_insert_insert_eq, Hs.
    change (mkRegExp p 0) with (literal p).
    now rewrite list_insert_id.
  - rewrite H0 by reflexivity. now rewrite list_insert_id.
Qed.

(** C9.  A call of [convertInlineMarkdown] returns the same
    [(converted, changed)] for the same input whatever calls came before
    it and whatever expression objects, in whatever state, the heap holds:
    every call allocates the objects it tests, and it changes none that
    was there before.  Nor would an object carry anything from one use to
    the next: a statement that finds its object as a literal makes it
    leaves it so, with the result it has on a new one. *)
Theorem convertInlineMarkdown_stateless
    (heap1 heap2 : Heap) (before1 before2 : list jsstring)
    (html : jsstring) :
  (exists results1 heap1' results2 heap2',
     session heap1 (before1 ++ [html]) = Some (results1, heap1')
     /\ session heap2 (before2 ++ [html]) = Some (results2, heap2')
     /\ last results1 = Some (convertInlineMarkdown html)
     /\ last results2 = last results1
     /\ heap1 `prefix_of` heap1'
     /\ heap2 `prefix_of` heap2')
  /\ (forall r p tpl st,
        heap1 !! r = Some (literal p) ->
        statement r tpl st heap1
        = Some (fst (convertStep p tpl st), heap1)).
Proof.
  split; [|intros r p tpl st; apply statement_restores].
  destruct (session_results (before1 ++ [html]) heap1) as (h1 & E1 & P1).
  destruct (session_results (before2 ++ [html]) heap2) as (h2 & E2 & P2).
  exists (map convertInlineMarkdown (before1 ++ [html])), h1,
         (map convertInlineMarkdown (before2 ++ [html])), h2.
  repeat split; [exact E1 | exact E2 | | | exact P1 | exact P2].
  - rewrite map_app. simpl. apply last_snoc.
  - rewrite !map_app. simpl. now rewrite !last_snoc.
Qed.

Lemma convertInlineMarkdown_stateless_witness :
  let heap1 := [literal boldPattern; mkRegExp italicPattern 7] in
  let html := js "**a** *b*" in
  heap1 !! 0 = Some (literal boldPattern)
  /\ statement 0 boldTemplate (html, false) heap1
     = Some ((js "<strong>a</strong> *b*", true), heap1)
  /\ exists results1 heap1' results2 heap2',
       session heap1 ([js "**x"; html] ++ [html]) = Some (results1, heap1')
       /\ session [] ([] ++ [html]) = Some (results2, heap2')
       /\ last results1 = Some (js "<strong>a</strong> <em>b</em>", true)
       /\ last results2 = last results1.
Proof.
  intros heap1 html.
  assert (H : heap1 !! 0 = Some (literal boldPattern)) by reflexivity.
  destruct (convertInlineMarkdown_stateless heap1 [] [js "**x"; html] [] html)
    as [(results1 & heap1' & results2 & heap2' & E1 & E2 & L1 & L2 & _)
        Hrestores].
  refine (conj H (conj (Hrestores 0 boldPattern boldTemplate (html, false) H)
                       _)).
  exact (ex_intro _ results1 (ex_intro _ heap1' (ex_intro _ results2
           (ex_intro _ heap2' (conj E1 (conj E2 (conj L1 L2))))))).
Defined.

(** C5.  Unterminated delimiters are left verbatim, and no input makes
    the function fail.

    - A string that holds no complete pair for any of the four
      expressions is returned as it is, with [changed = false], and a
      pass whose delimiter is unterminated in its input returns the
      input.
    - Among complete pairs: an opening delimiter that no closing pair
      follows, behind a text whose own pairs are all terminated and
      which does not end with the delimiter character, is left as it
      is, together with what follows it, and the text in front is
      converted as it is on its own.
    - For every string, each pass is the reading from left to right in
      which a code unit at which no terminated pair begins is copied and
      a terminated pair is replaced, and the function is the four passes
      in a row; the reading determines the output.
    - On every heap a call returns a result. *)
Theorem unterminated_verbatim (html : jsstring) :
  (~ terminated boldPattern html -> ~ terminated italicPattern html ->
   ~ terminated strikePattern html -> ~ terminated codePattern html ->
   convertInlineMarkdown html = (html, false))
  /\ (forall p tpl, Rule p tpl -> ~ terminated p html -> pass p tpl html = html)
  /\ (forall p tpl pre post,
        Rule p tpl ->
        html = pre ++ repeat (delim p) (width p) ++ post ->
        last pre <> Some (delim p) ->
        delimiters (fst (convertInlineMarkdown pre)) = 0 ->
        (forall q tplq, Rule q tplq ->
           ~ terminated q (repeat (delim p) (width p) ++ post)) ->
        convertInlineMarkdown html
        = (fst (convertInlineMarkdown pre)
             ++ repeat (delim p) (width p) ++ post,
           snd (convertInlineMarkdown pre)))
  /\ (forall p tpl s out,
        Rule p tpl -> (Rewrites p tpl None s out <-> out = pass p tpl s))
  /\ fst (convertInlineMarkdown html)
     = pass codePattern codeTemplate
         (pass strikePattern strikeTemplate
           (pass italicPattern italicTemplate
             (pass boldPattern boldTemplate html)))
  /\ (forall heap, exists result heap',
        invoke html heap = Some (result, heap')).
Proof.
  split; [|split; [|split; [|split; [|split]]]].
  - intros H1 H2 H3 H4. apply fixed_iff.
    repeat split; eapply matches_terminated; eauto.
  - intros p tpl R H. unfold pass. rewrite convertStep_miss; [reflexivity|].
    now apply (matches_terminated p tpl).
  - intros p tpl pre post R -> Hlast Hpre Htail.
    apply (opening_behind_pairs p tpl); auto.
    apply fixed_iff. repeat split; eapply matches_terminated; eauto.
  - intros p tpl s out R. rewrite pass_replaceFrom by exact R.
    apply (Rewrites_replaceFrom p (Rule_width p tpl R)).
  - apply converted_passes.
  - intros heap. rewrite invoke_body. eauto.
Qed.

Lemma unterminated_verbatim_witness :
  let html := js "*a* **b*" in
  let pre := js "*a* " in
  let post := js "b*" in
  html = pre ++ repeat (delim boldPattern) (width boldPattern) ++ post
  /\ last pre <> Some (delim boldPattern)
  /\ delimiters (fst (convertInlineMarkdown pre)) = 0
  /\ (forall q tplq, Rule q tplq ->
        ~ terminated q
            (repeat (delim boldPattern) (width boldPattern) ++ post))
  /\ ~ terminated boldPattern html
  /\ convertInlineMarkdown html = (js "<em>a</em> **b*", true)
  /\ pass boldPattern boldTemplate html = html.
Proof.
  intros html pre post.
  assert (H0 : html = pre ++ repeat (delim boldPattern) (width boldPattern)
                        ++ post) by reflexivity.
  assert (H1 : last pre <> Some (delim boldPattern)) by discriminate.
  assert (H2 : delimiters (fst (convertInlineMarkdown pre)) = 0)
    by reflexivity.
  assert (H3 : forall q tplq, Rule q tplq ->
                 ~ terminated q
                     (repeat (delim boldPattern) (width boldPattern) ++ post)).
  { intros q tplq Rq. apply (matches_terminated _ _ _ Rq).
    destruct Rq; reflexivity. }
  assert (H4 : ~ terminated boldPattern html)
    by (apply (matches_terminated _ _ _ rule_bold); reflexivity).
  refine (conj H0 (conj H1 (conj H2 (conj H3 (conj H4 (conj _ _)))))).
  - exact (proj1 (proj2 (proj2 (unterminated_verbatim html)))
             boldPattern boldTemplate pre post rule_bold H0 H1 H2 H3).
  - exact (proj1 (proj2 (unterminated_verbatim html))
             boldPattern boldTemplate rule_bold H4).
Defined.

End ParagraphBlockFacts.

(** ** Nested blocks *)

Module NestedBlockFacts.

Import Store NestedBlock.

Lemma findBlock_mapBlock f blockId other st :
  (forall b, id (f b) = id b) ->
  findBlock (document (mapBlock f blockId st)) other
  = (if String.eqb other blockId then f else fun b => b)
      <$> findBlock (document st) other.
Proof.
  intros Hid. unfold findBlock, mapBlock; simpl.
  induction (blocks (document st)) as [|b bs IH]; simpl; [reflexivity|].
  destruct (String.eqb_spec (id b) blockId) as [E|E].
  - rewrite Hid. destruct (String.eqb_spec (id b) other) as [E'|E'].
    + subst. simpl. now rewrite String.eqb_refl.
    + apply IH.
  - destruct (String.eqb_spec (id b) other) as [E'|E']; [|apply IH].
    simpl. destruct (String.eqb_spec other blockId); [congruence|reflexivity].
Qed.

Lemma contents_mapBlock f blockId st :
  (forall b, content (f b) = content b) ->
  map content (blocks (document (mapBlock f blockId st)))
  = map content (blocks (document st)).
Proof.
  intros Hc. unfold mapBlock; simpl. rewrite map_map.
  apply map_ext. intros b. now destruct (String.eqb (id b) blockId).
Qed.

Lemma applyPatch_lookup (m props : gmap string Value) k :
  applyPatch (Some <$> m) props !! k
  = match m !! k with
    | Some v => Some v
    | None => props !! k
    end.
Proof.
  unfold applyPatch. rewrite lookup_merge, lookup_fmap.
  destruct (m !! k), (props !! k); reflexivity.
Qed.

(** A split makes the document one block longer. *)
Lemma isSplit_length before after blockId left right :
  isSplit before after blockId left right ->
  length (blocks (document after)) = S (length (blocks (document before))).
Proof.
  intros (pre & b & post & new & -> & _ & _ & -> & _).
  rewrite !length_app. simpl. lia.
Qed.

(** C3, as stated, fails for a block inside a container: Enter with no
    modifier leaves the document as it is, so no block with the right part
    of the content follows the nested paragraph. *)
Lemma nested_enter_does_not_split :
  let st' := fst (fst (step exampleBrowser "n1" exampleStore
                         (mount exampleBrowser exampleStore "n1")
                         (KeyDown enter))) in
  st' = exampleStore
  /\ ~ isSplit exampleStore st' "n1" (js "AB") (js "CD").
Proof.
  split; [reflexivity|].
  intros H. apply isSplit_length in H. simpl in H. lia.
Qed.

(** C3, amended.  In a block nested inside a container, Enter with no
    modifier does not split: the handler prevents the default action, has
    the browser insert a line break into the block's own content and stops
    the propagation of the event; the element then holds what the browser
    made of its content, and the document, the active block and the
    content committed last stay as they are, so no partition of the
    content is the effect of a split.  Outside containers a paragraph
    block hands every key event, with its id and its element, to the key
    handler of the editor. *)
Theorem nested_enter_line_break
    (b : Dom.Browser) (blockId : string) (st : EditorStore) (r : Refs)
    (e : Dom.KeyboardEvent) :
  Dom.key e = "Enter"%string -> Dom.shiftKey e = false ->
  step b blockId st r (KeyDown e)
  = (st,
     mkRefs (Dom.execCommand b "insertLineBreak" <$> contentRef r)
            (initialContentRef r),
     [Dom.PreventDefault; Dom.ExecCommand "insertLineBreak";
      Dom.StopPropagation])
  /\ (forall left right,
        ~ isSplit st (fst (fst (step b blockId st r (KeyDown e))))
            blockId left right)
  /\ (forall id el,
        ParagraphBlock.handleKeyDown id el e
        = [ParagraphBlock.OnKeyDown e id el]).
Proof.
  intros Hk Hs. unfold step, handleKeyDown. rewrite Hk, Hs. simpl.
  split; [now destruct (contentRef r)|]. split; [|reflexivity].
  intros left right H. apply isSplit_length in H. lia.
Qed.

Lemma nested_enter_line_break_witness :
  Dom.key enter = "Enter"%string /\ Dom.shiftKey enter = false
  /\ step exampleBrowser "n1" exampleStore
          (mount exampleBrowser exampleStore "n1") (KeyDown enter)
     = (exampleStore, mkRefs (Some (js "ABCD<br>")) (Some (js "ABCD")),
        [Dom.PreventDefault; Dom.ExecCommand "insertLineBreak";
         Dom.StopPropagation]).
Proof.
  refine (conj eq_refl (conj eq_refl _)).
  exact (proj1 (nested_enter_line_break exampleBrowser "n1" exampleStore
                  (mount exampleBrowser exampleStore "n1") enter
                  eq_refl eq_refl)).
Defined.

Lemma step_contents b blockId st r ev :
  ev <> Blur ->
  contents (fst (fst (step b blockId st r ev))) = contents st.
Proof.
  intros Hev. destruct ev as [html|e| | |checked]; simpl;
    try reflexivity; [contradiction|].
  unfold handleCheckboxChange.
  destruct (findBlock (document st) blockId); [|reflexivity].
  unfold updateNestedBlock; simpl. now apply contents_mapBlock.
Qed.

Lemma run_contents b blockId evs : forall st r,
  Forall (fun ev => ev <> Blur) evs ->
  contents (fst (run b blockId st r evs)) = contents st.
Proof.
  induction evs as [|ev evs IH]; intros st r H; simpl; [reflexivity|].
  inversion H as [|? ? Hev Hevs]; subst.
  pose proof (step_contents b blockId st r ev Hev) as Hc.
  destruct (step b blockId st r ev) as [[st' r'] effects]; simpl in *.
  now rewrite IH.
Qed.

(** C4, as stated, fails for a paragraph block: the input event that
    follows a keystroke hands the content of the element to
    [onContentChange], and the store holds the new content at once, with
    no blur in between. *)
Lemma paragraph_input_reaches_store :
  let st := mkStore (mkDocument [mkBlock "p1" PARAGRAPH (js "a") ∅])
                    (Some "p1"%string) in
  let m := ParagraphBlock.mkMounted "p1" (js "a") in
  snd (ParagraphBlock.handleInput "p1" (js "ab"))
  = [ParagraphBlock.OnContentChange "p1" (js "ab")]
  /\ contents (fst (ParagraphBlock.step st m (ParagraphBlock.Input (js "ab"))))
     = [js "ab"]
  /\ contents (fst (ParagraphBlock.step st m (ParagraphBlock.Input (js "ab"))))
     <> contents st.
Proof. vm_compute. repeat split. discriminate. Qed.

(** C4, amended.  A block nested inside a container commits content to
    the store at blur only: whatever is typed, whichever keys go down and
    whenever the focus arrives, the contents of the document stay as they
    are until the element loses the focus, and then the content of the
    element is committed if it differs from the content committed last.
    A paragraph block outside containers hands the converted content of
    its element to [onContentChange] at every input event. *)
Theorem nested_commit_at_blur
    (b : Dom.Browser) (blockId : string) (st : EditorStore) (r : Refs)
    (evs : list Event) (html : jsstring) :
  Forall (fun ev => ev <> Blur) evs ->
  contents (fst (run b blockId st r evs)) = contents st
  /\ handleBlur blockId st r
     = match contentRef r with
       | Some c =>
           if decide (Some c <> initialContentRef r)
           then (updateNestedBlock blockId (mkUpdates (Some c) None) st,
                 mkRefs (contentRef r) (Some c))
           else (st, r)
       | None => (st, r)
       end
  /\ snd (ParagraphBlock.handleInput blockId html)
     = [ParagraphBlock.OnContentChange blockId
          (fst (ParagraphBlock.convertInlineMarkdown html))].
Proof.
  intros Hevs. split; [now apply run_contents|]. split; [reflexivity|].
  unfold ParagraphBlock.handleInput.
  pose proof (ParagraphBlockFacts.unchanged_same html) as Hsame.
  destruct (ParagraphBlock.convertInlineMarkdown html) as [converted changed].
  simpl in *. destruct changed; simpl; [reflexivity|].
  now rewrite Hsame.
Qed.

Lemma nested_commit_at_blur_witness :
  let evs := [Focus; Edit (js "ABCDE"); KeyDown enter; Edit (js "ABCDE<br>")] in
  Forall (fun ev => ev <> Blur) evs
  /\ contents (fst (run exampleBrowser "n1" exampleStore
                       (mount exampleBrowser exampleStore "n1") evs))
     = contents exampleStore.
Proof.
  intros evs.
  assert (H : Forall (fun ev => ev <> Blur) evs)
    by (repeat constructor; discriminate).
  refine (conj H _).
  exact (proj1 (nested_commit_at_blur exampleBrowser "n1" exampleStore
                  (mount exampleBrowser exampleStore "n1") evs [] H)).
Defined.

(** The object the handler builds from the properties of the block is
    what the block holds afterwards, whether the store merges it into the
    properties or puts it in their place. *)
Lemma checkbox_patch_merged (props : gmap string Value) (checked : bool) :
  applyPatch (Some <$> <["checked"%string := VBool checked]> props) props
  = <["checked"%string := VBool checked]> props.
Proof.
  apply map_eq. intros k. rewrite applyPatch_lookup.
  destruct (decide (k = "checked"%string)) as [->|Hk].
  - now rewrite lookup_insert_eq.
  - rewrite lookup_insert_ne by congruence.
    now destruct (props !! k).
Qed.

(** C8.  Switching the checkbox of a block sets the key [checked] of its
    properties and nothing else: every other key keeps its value, the id,
    the type and the content of the block stay, and so do all other
    blocks and the active block. *)
Theorem checkbox_updates_checked_only
    (blockId : string) (checked : bool) (st : EditorStore) (block : Block) :
  findBlock (document st) blockId = Some block ->
  let st' := handleCheckboxChange blockId checked st in
  exists block',
    findBlock (document st') blockId = Some block'
    /\ id block' = id block
    /\ type block' = type block
    /\ content block' = content block
    /\ properties block' !! "checked"%string = Some (VBool checked)
    /\ (forall k, k <> "checked"%string ->
                  properties block' !! k = properties block !! k)
    /\ (forall other, other <> blockId ->
                      findBlock (document st') other
                      = findBlock (document st) other)
    /\ activeBlockId st' = activeBlockId st.
Proof.
  intros Hfind st'. subst st'. unfold handleCheckboxChange.
  rewrite Hfind. unfold updateNestedBlock, updateProperties.
  cbn [newContent newProperties].
  eexists. split.
  { rewrite findBlock_mapBlock by reflexivity.
    rewrite Hfind, String.eqb_refl. reflexivity. }
  repeat split.
  - simpl. rewrite applyPatch_lookup. now rewrite lookup_insert_eq.
  - intros k Hk. simpl. rewrite applyPatch_lookup.
    rewrite lookup_insert_ne by congruence.
    now destruct (properties block !! k).
  - intros other Hother. rewrite findBlock_mapBlock by reflexivity.
    destruct (String.eqb_spec other blockId); [contradiction|].
    now destruct (findBlock (document st) other).
Qed.

Lemma checkbox_updates_checked_only_witness :
  let block := mkBlock "t1" TASK (js "buy milk")
                 {["color" := VString "red"]} in
  findBlock (document exampleStore) "t1" = Some block
  /\ exists block',
      findBlock (document (handleCheckboxChange "t1" true exampleStore)) "t1"
      = Some block'
      /\ properties block' !! "checked"%string = Some (VBool true)
      /\ properties block' !! "color"%string = Some (VString "red").
Proof.
  intros block.
  assert (H : findBlock (document exampleStore) "t1" = Some block)
    by reflexivity.
  refine (conj H _).
  destruct (checkbox_updates_checked_only "t1" true exampleStore block H)
    as (block' & Hf & _ & _ & _ & Hc & Hk & _).
  exists block'. refine (conj Hf (conj Hc _)).
  rewrite Hk by discriminate. reflexivity.
Defined.

End NestedBlockFacts.

(** ** Dragging *)

Module ReorderFacts.

Import Reorder SortableBlock.

(** Scenario 3 of the design document, on the modelled engine: in
    [[A, B, C]], dragging [A] below [C] gives [[B, C, A]], and dragging it
    back above [B] restores [[A, B, C]]. *)
Example scenario_reorder :
  rootOrder (release 24 abc (mkGesture "A" "C" false 0)) = ["B"; "C"; "A"]%string
  /\ release 24 (release 24 abc (mkGesture "A" "C" false 0))
       (mkGesture "A" "B" true 0)
     = abc.
Proof. vm_compute. split; reflexivity. Qed.

(** C7.  A gesture whose source is the hovered block resolves to nothing:
    after the release the root order, the children of every container and
    every parent are as before; and the block that is being dragged shows
    no drop indicator. *)
Theorem self_drop_is_noop
    (threshold : nat) (t : Tree) (g : Gesture)
    (block : Store.Block) (s : Sortable) :
  source g = hovered g ->
  active s = Some (Store.id block) ->
  resolve threshold t g = None
  /\ release threshold t g = t
  /\ showDropIndicator block s = false.
Proof.
  intros Hself Hactive.
  assert (Hr : resolve threshold t g = None).
  { unfold resolve. now rewrite Hself, String.eqb_refl. }
  split; [assumption|]. split.
  - unfold release. now rewrite Hr.
  - unfold showDropIndicator. rewrite Hactive, String.eqb_refl.
    now rewrite andb_false_r.
Qed.

Lemma self_drop_is_noop_witness :
  let g := mkGesture "B" "B" true 0 in
  let block := Store.mkBlock "B" Store.PARAGRAPH [] ∅ in
  let s := mkSortable true true (Some "B"%string) in
  source g = hovered g /\ active s = Some (Store.id block)
  /\ release 24 abc g = abc /\ showDropIndicator block s = false.
Proof.
  intros g block s.
  refine (conj eq_refl (conj eq_refl _)).
  exact (proj2 (self_drop_is_noop 24 abc g block s eq_refl eq_refl)).
Defined.

End ReorderFacts.

(** ** More on the autoformatter *)

Module AutoformatFacts.

Import RegExp RegExpFacts ParagraphBlock ParagraphBlockFacts.

#[local] Arguments convertStep : simpl never.
#[local] Arguments replaceFrom : simpl never.
#[local] Arguments N.eqb : simpl never.

#[local] Hint Constructors Rule : core.
#[local] Hint Resolve Rule_width Rule_longer : core.

Local Abbreviation occ s d := (@count_occ codeUnit N.eq_dec s d).

Lemma matches_true p s : matches p s = true <-> search p None s <> None.
Proof.
  unfold matches. rewrite test_literal.
  destruct (search p None s); split; congruence.
Qed.

(** X1.  [pattern.test(s)] answers true exactly when [s] holds a
    terminated pair of the pattern's delimiter. *)
Theorem test_finds_terminated_pairs p tpl s :
  Rule p tpl -> matches p s = true <-> terminated p s.
Proof.
  intros R. rewrite matches_true. apply search_terminated. eauto.
Qed.

Lemma test_finds_terminated_pairs_witness :
  Rule italicPattern italicTemplate
  /\ (matches italicPattern (js "a *b* c") = true
      <-> terminated italicPattern (js "a *b* c")).
Proof.
  refine (conj rule_italic _).
  exact (test_finds_terminated_pairs italicPattern italicTemplate
           (js "a *b* c") rule_italic).
Defined.

Lemma Rule_delimiter p tpl : Rule p tpl -> isDelimiter (delim p) = true.
Proof. destruct 1; reflexivity. Qed.

Lemma plain_cons c t :
  delimiters (c :: t) = 0 -> isDelimiter c = false /\ delimiters t = 0.
Proof.
  rewrite delimiters_cons. destruct (isDelimiter c); [lia | auto].
Qed.

(** A string without delimiter characters holds no occurrence of one. *)
Lemma plain_occurrences t d :
  delimiters t = 0 -> isDelimiter d = true -> occ t d = 0.
Proof.
  intros Ht Hd. induction t as [|c t IH]; [reflexivity|].
  apply plain_cons in Ht. destruct Ht as [Hc Ht]. simpl.
  destruct (N.eq_dec c d) as [->|_]; [congruence | auto].
Qed.

Lemma plain_Forall t d :
  delimiters t = 0 -> isDelimiter d = true -> Forall (fun c => c <> d) t.
Proof.
  intros Ht Hd. induction t as [|c t IH]; [constructor|].
  apply plain_cons in Ht. destruct Ht as [Hc Ht].
  constructor; [congruence | auto].
Qed.

(** A terminated pair takes twice the width in delimiter characters. *)
Lemma terminated_occurrences p s :
  terminated p s -> 2 * width p <= occ s (delim p).
Proof.
  intros (pre & x & post & -> & _).
  rewrite !count_occ_app, !count_occ_repeat_eq by reflexivity. lia.
Qed.

Lemma no_match_few p tpl s :
  Rule p tpl -> occ s (delim p) < 2 * width p ->
  matches p s = false.
Proof.
  intros R H. apply (matches_terminated p tpl s R).
  intros T. apply terminated_occurrences in T. lia.
Qed.

Lemma plain_no_match p tpl s :
  Rule p tpl -> delimiters s = 0 -> matches p s = false.
Proof.
  intros R H. apply (no_match_few p tpl s R).
  rewrite plain_occurrences by eauto using Rule_delimiter.
  pose proof (Rule_width p tpl R). lia.
Qed.

(** Code units other than the delimiter in front of a string are copied. *)
Lemma replaceFrom_prefix p tpl pre t :
  0 < width p -> Forall (fun c => c <> delim p) pre ->
  forall prev,
    replaceFrom p tpl prev (pre ++ t)
    = pre ++ replaceFrom p tpl
               (match last pre with Some c => Some c | None => prev end) t.
Proof.
  intros Hw H. induction H as [|c pre Hc _ IH]; intros prev; [reflexivity|].
  simpl app. rewrite replaceFrom_skip by now apply matchAt_other.
  rewrite IH. now rewrite last_scanned.
Qed.

Lemma replaceFrom_plain p tpl t prev :
  0 < width p -> Forall (fun c => c <> delim p) t ->
  replaceFrom p tpl prev t = t.
Proof.
  intros Hw H. rewrite <- (app_nil_r t) at 1.
  rewrite replaceFrom_prefix by assumption.
  now rewrite (replaceFrom_nil p Hw), app_nil_r.
Qed.

(** One pass over a pair in plain surroundings. *)
Lemma pass_plain_pair p tpl pre x post :
  Rule p tpl -> x <> [] ->
  delimiters pre = 0 -> delimiters x = 0 -> delimiters post = 0 ->
  matches p (pre ++ repeat (delim p) (width p) ++ x
               ++ repeat (delim p) (width p) ++ post) = true
  /\ replaceFrom p tpl None
       (pre ++ repeat (delim p) (width p) ++ x
          ++ repeat (delim p) (width p) ++ post)
     = pre ++ before tpl ++ x ++ after tpl ++ post.
Proof.
  intros R Hx Hpre Hpx Hpost.
  pose proof (Rule_width p tpl R) as Hw.
  pose proof (Rule_delimiter p tpl R) as Hd.
  pose proof (plain_Forall pre _ Hpre Hd) as Fpre.
  pose proof (plain_Forall x _ Hpx Hd) as Fx.
  pose proof (plain_Forall post _ Hpost Hd) as Fpost.
  assert (Hb : lookbehind p (last pre) = true).
  { unfold lookbehind. destruct (guarded p); [|reflexivity].
    destruct (last pre) as [c|] eqn:E; [|reflexivity].
    apply last_Some in E. destruct E as [pre' ->].
    apply Forall_app in Fpre. destruct Fpre as [_ Fc].
    inversion Fc; subst. now apply negb_true_iff, N.eqb_neq. }
  assert (Ha : lookahead p post = true).
  { unfold lookahead. destruct (guarded p); [|reflexivity].
    destruct Fpost as [|c post Hc _]; [reflexivity|].
    now apply negb_true_iff, N.eqb_neq. }
  split.
  - apply matches_true, (search_terminated p Hw).
    exists pre, x, post. auto.
  - rewrite replaceFrom_prefix by assumption.
    assert (E : matchAt p (match last pre with Some c => Some c | None => None end)
                  (repeat (delim p) (width p) ++ x
                     ++ repeat (delim p) (width p) ++ post)
                = Some (x, post)).
    { apply (matchAt_spec p Hw). repeat split; auto.
      now destruct (last pre). }
    rewrite (replaceFrom_match p Hw _ _ _ _ _ E).
    now rewrite (replaceFrom_plain p tpl post _ Hw Fpost).
Qed.

Lemma count_plain_pair (d d' : codeUnit) w pre x post :
  delimiters pre = 0 -> delimiters x = 0 -> delimiters post = 0 ->
  isDelimiter d' = true ->
  occ (pre ++ repeat d w ++ x ++ repeat d w ++ post) d'
  = if N.eq_dec d' d then 2 * w else 0.
Proof.
  intros Hpre Hx Hpost Hd.
  rewrite !count_occ_app.
  rewrite (plain_occurrences pre d' Hpre Hd), (plain_occurrences x d' Hx Hd),
    (plain_occurrences post d' Hpost Hd).
  destruct (N.eq_dec d' d) as [E|E].
  - rewrite !count_occ_repeat_eq by assumption. lia.
  - now rewrite !count_occ_repeat_neq by assumption.
Qed.

Lemma delimiters_plain_pair tpl p pre x post :
  Rule p tpl ->
  delimiters pre = 0 -> delimiters x = 0 -> delimiters post = 0 ->
  delimiters (pre ++ before tpl ++ x ++ after tpl ++ post) = 0.
Proof.
  intros R Hpre Hx Hpost.
  destruct (delimiters_template p tpl R) as [Hb Ha].
  rewrite !delimiters_app. lia.
Qed.

(** X2.  A complete pair in plain surroundings is converted: for each of
    the four patterns, when the text in front of the pair, between the
    delimiters and behind the pair holds no delimiter character and the
    text between the delimiters is not empty, the function puts the
    markup of the pattern around that text, leaves the surroundings as
    they are and reports a change. *)
Theorem plain_pair_converted p tpl pre x post :
  Rule p tpl -> x <> [] ->
  delimiters pre = 0 -> delimiters x = 0 -> delimiters post = 0 ->
  convertInlineMarkdown
    (pre ++ repeat (delim p) (width p) ++ x
       ++ repeat (delim p) (width p) ++ post)
  = (pre ++ before tpl ++ x ++ after tpl ++ post, true).
Proof.
  intros R Hx Hpre Hpx Hpost.
  destruct (pass_plain_pair p tpl pre x post R Hx Hpre Hpx Hpost)
    as [Hhit Hout].
  pose proof (delimiters_plain_pair tpl p pre x post R Hpre Hpx Hpost)
    as Hplain.
  assert (Hafter : forall q tplq, Rule q tplq ->
            matches q (pre ++ before tpl ++ x ++ after tpl ++ post) = false)
    by (intros q tplq Rq; now apply (plain_no_match q tplq)).
  assert (Hfew : forall q tplq, Rule q tplq ->
            (if N.eq_dec (delim q) (delim p) then 2 * width p else 0)
            < 2 * width q ->
            matches q (pre ++ repeat (delim p) (width p) ++ x
                         ++ repeat (delim p) (width p) ++ post) = false).
  { intros q tplq Rq H. apply (no_match_few q tplq _ Rq).
    rewrite count_plain_pair by eauto using Rule_delimiter. exact H. }
  rewrite convertInlineMarkdown_steps.
  destruct R; rewrite !convertStep_result;
    repeat first
      [ rewrite Hhit; rewrite Hout
      | rewrite (Hafter _ _ rule_bold)
      | rewrite (Hafter _ _ rule_italic)
      | rewrite (Hafter _ _ rule_strike)
      | rewrite (Hafter _ _ rule_code)
      | rewrite (Hfew _ _ rule_bold) by (vm_compute; lia)
      | rewrite (Hfew _ _ rule_italic) by (vm_compute; lia)
      | rewrite (Hfew _ _ rule_strike) by (vm_compute; lia)
      | rewrite (Hfew _ _ rule_code) by (vm_compute; lia)
      | rewrite convertStep_result ];
    reflexivity.
Qed.

Lemma plain_pair_converted_witness :
  Rule strikePattern strikeTemplate /\ js "gone" <> []
  /\ delimiters (js "all ") = 0 /\ delimiters (js "gone") = 0
  /\ delimiters (js " now") = 0
  /\ convertInlineMarkdown
       (js "all " ++ repeat tilde 2 ++ js "gone" ++ repeat tilde 2
          ++ js " now")
     = (js "all " ++ before strikeTemplate ++ js "gone"
          ++ after strikeTemplate ++ js " now", true).
Proof.
  assert (Hx : js "gone" <> []) by discriminate.
  refine (conj rule_strike (conj Hx (conj eq_refl (conj eq_refl
            (conj eq_refl _))))).
  exact (plain_pair_converted strikePattern strikeTemplate
           (js "all ") (js "gone") (js " now")
           rule_strike Hx eq_refl eq_refl eq_refl).
Defined.

(** *** What the function keeps *)

Lemma filter_repeat_delim (d : codeUnit) w :
  isDelimiter d = true ->
  List.filter (fun c => negb (isDelimiter c)) (repeat d w) = [].
Proof. intros Hd. induction w; simpl; [|rewrite Hd]; auto. Qed.

Lemma filter_sublist (f : codeUnit -> bool) s :
  sublist (List.filter f s) s.
Proof.
  induction s as [|c s IH]; simpl; [constructor|].
  destruct (f c); now constructor.
Qed.

Lemma Copies_keeps p tpl s out :
  isDelimiter (delim p) = true -> Copies p tpl s out ->
  sublist (List.filter (fun c => negb (isDelimiter c)) s)
          (List.filter (fun c => negb (isDelimiter c)) out).
Proof.
  intros Hd. induction 1 as [|c s out _ IH|x s out Hx Hall _ IH]; simpl.
  - constructor.
  - destruct (isDelimiter c); simpl; [assumption | now constructor].
  - rewrite !List.filter_app, !filter_repeat_delim by assumption. simpl.
    apply sublist_inserts_l, sublist_app; [reflexivity|].
    now apply sublist_inserts_l.
Qed.

(** X3.  No text is lost: the code units of the input other than the
    three delimiter characters all appear in the output, in their order. *)
Theorem text_survives (html : jsstring) :
  sublist (List.filter (fun c => negb (isDelimiter c)) html)
          (fst (convertInlineMarkdown html)).
Proof.
  rewrite converted_passes.
  etransitivity; [|apply filter_sublist].
  etransitivity; [|apply (Copies_keeps codePattern codeTemplate);
                   [reflexivity | apply pass_Copies; auto]].
  etransitivity; [|apply (Copies_keeps strikePattern strikeTemplate);
                   [reflexivity | apply pass_Copies; auto]].
  etransitivity; [|apply (Copies_keeps italicPattern italicTemplate);
                   [reflexivity | apply pass_Copies; auto]].
  apply (Copies_keeps boldPattern boldTemplate);
    [reflexivity | apply pass_Copies; auto].
Qed.

(** *** Calls on the function's own output *)

Lemma replaceFrom_removes_pair p tpl (R : Rule p tpl) prev s :
  search p prev s <> None ->
  delimiters (replaceFrom p tpl prev s) + 2 <= delimiters s.
Proof.
  pose proof (Rule_width p tpl R) as Hw.
  destruct (delimiters_template p tpl R) as [Hb Ha].
  revert prev s. apply (scan_ind p Hw (fun prev s =>
    search p prev s <> None ->
    delimiters (replaceFrom p tpl prev s) + 2 <= delimiters s)).
  - intros prev H. simpl in H. now rewrite (matchAt_nil p Hw) in H.
  - intros prev c s E IH Hs. simpl in Hs. rewrite E in Hs.
    rewrite replaceFrom_skip by assumption.
    rewrite !delimiters_cons. apply IH in Hs. lia.
  - intros prev s cap rest E _ _.
    rewrite (replaceFrom_match p Hw _ _ _ _ _ E).
    destruct (replaceFrom_delimiters p tpl R (Some (delim p)) rest)
      as [Hle _].
    apply (matchAt_spec p Hw) in E. destruct E as (_ & -> & _).
    rewrite !delimiters_app, (delimiters_repeat p tpl R), Hb, Ha. lia.
Qed.

Lemma convertStep_removes_pair p tpl html st :
  Rule p tpl ->
  (snd st = false /\ fst st = html)
  \/ (snd st = true /\ delimiters (fst st) + 2 <= delimiters html) ->
  (snd (fst (convertStep p tpl st)) = false
   /\ fst (fst (convertStep p tpl st)) = html)
  \/ (snd (fst (convertStep p tpl st)) = true
      /\ delimiters (fst (fst (convertStep p tpl st))) + 2
         <= delimiters html).
Proof.
  intros R T. destruct st as [converted changed].
  rewrite convertStep_result. simpl in T.
  destruct (replaceFrom_delimiters p tpl R None converted) as [Hle _].
  destruct (matches p converted) eqn:M; simpl; [|assumption].
  right. split; [reflexivity|].
  apply matches_true in M.
  pose proof (replaceFrom_removes_pair p tpl R None converted M).
  destruct T as [[_ <-]|[_ T]]; lia.
Qed.

Lemma changed_removes_pair html :
  snd (convertInlineMarkdown html) = true ->
  delimiters (fst (convertInlineMarkdown html)) + 2 <= delimiters html.
Proof.
  rewrite convertInlineMarkdown_steps. intros Hc.
  assert (T : (snd (html, false) = false /\ fst (html, false) = html)
              \/ (snd (html, false) = true
                  /\ delimiters (fst (html, false)) + 2 <= delimiters html))
    by now left.
  apply (convertStep_removes_pair boldPattern boldTemplate) in T; auto.
  apply (convertStep_removes_pair italicPattern italicTemplate) in T; auto.
  apply (convertStep_removes_pair strikePattern strikeTemplate) in T; auto.
  apply (convertStep_removes_pair codePattern codeTemplate) in T; auto.
  destruct T as [[T _]|[_ T]]; [congruence | assumption].
Qed.

(** X4.  Called again and again on its own output, as the input handler
    does event after event, the function reaches a string it returns as it
    is; every call that reports a change removes at least two delimiter
    characters, so this takes at most half as many calls as the input has
    delimiter characters. *)
Theorem reformat_settles_within (html : jsstring) :
  (snd (convertInlineMarkdown html) = true ->
   delimiters (fst (convertInlineMarkdown html)) + 2 <= delimiters html)
  /\ exists n,
      2 * n <= delimiters html
      /\ convertInlineMarkdown (iterate n html) = (iterate n html, false).
Proof.
  split; [apply changed_removes_pair|].
  remember (delimiters html) as k eqn:Ek. revert html Ek.
  induction k as [k IH] using lt_wf_ind. intros html ->.
  destruct (snd (convertInlineMarkdown html)) eqn:Hc.
  - pose proof (changed_removes_pair html Hc) as Hlt.
    destruct (IH (delimiters (fst (convertInlineMarkdown html)))
                ltac:(lia) (fst (convertInlineMarkdown html)) eq_refl)
      as (n & Hn & Hfix).
    exists (S n). split; [lia | exact Hfix].
  - exists 0. split; [lia|]. simpl.
    pose proof (unchanged_same html Hc) as Hs.
    destruct (convertInlineMarkdown html) as [c ch]; simpl in *. congruence.
Qed.

Lemma reformat_settles_within_witness :
  snd (convertInlineMarkdown (js "**a*b*c**")) = true
  /\ delimiters (fst (convertInlineMarkdown (js "**a*b*c**"))) + 2
     <= delimiters (js "**a*b*c**").
Proof.
  refine (conj eq_refl _).
  exact (proj1 (reformat_settles_within (js "**a*b*c**")) eq_refl).
Defined.

(** *** The input handler *)

(** X5.  An input event leaves the element and the cursor alone exactly
    when the content holds no terminated pair of any of the four
    delimiters; the content is then handed to [onContentChange] as it is.
    Otherwise the element is rewritten and the cursor is put at the end. *)
Theorem input_rewrites_only_pairs (id : string) (html : jsstring) :
  (handleInput id html = (html, [], [OnContentChange id html])
   <-> (~ terminated boldPattern html /\ ~ terminated italicPattern html
        /\ ~ terminated strikePattern html /\ ~ terminated codePattern html))
  /\ (handleInput id html <> (html, [], [OnContentChange id html]) ->
      handleInput id html
      = (fst (convertInlineMarkdown html), [Dom.CursorToEnd],
         [OnContentChange id (fst (convertInlineMarkdown html))])).
Proof.
  assert (Hfix : convertInlineMarkdown html = (html, false) <->
                 (~ terminated boldPattern html
                  /\ ~ terminated italicPattern html
                  /\ ~ terminated strikePattern html
                  /\ ~ terminated codePattern html)).
  { rewrite fixed_iff.
    rewrite (matches_terminated _ _ html rule_bold),
      (matches_terminated _ _ html rule_italic),
      (matches_terminated _ _ html rule_strike),
      (matches_terminated _ _ html rule_code). reflexivity. }
  rewrite <- Hfix. unfold handleInput.
  pose proof (unchanged_same html) as Hsame.
  destruct (convertInlineMarkdown html) as [converted [|]]; simpl in *.
  - split; [|reflexivity]. split; [discriminate | congruence].
  - rewrite Hsame by reflexivity. split; [|congruence].
    split; reflexivity.
Qed.

Lemma input_rewrites_only_pairs_witness :
  handleInput "p1" (js "a *b* c")
    <> (js "a *b* c", [], [OnContentChange "p1" (js "a *b* c")])
  /\ handleInput "p1" (js "a *b* c")
     = (js "a <em>b</em> c", [Dom.CursorToEnd],
        [OnContentChange "p1" (js "a <em>b</em> c")]).
Proof.
  assert (H : handleInput "p1" (js "a *b* c")
              <> (js "a *b* c", [], [OnContentChange "p1" (js "a *b* c")]))
    by discriminate.
  refine (conj H _).
  exact (proj2 (input_rewrites_only_pairs "p1" (js "a *b* c")) H).
Defined.

End AutoformatFacts.

(** ** More on nested blocks *)

Module NestedBlockMore.

Import Store NestedBlock NestedBlockFacts.

(** X6.  A second blur in a row does nothing: the first one has recorded
    the content it committed, so neither the store nor the refs change
    again. *)
Theorem blur_twice (blockId : string) (st : EditorStore) (r : Refs) :
  handleBlur blockId (fst (handleBlur blockId st r))
             (snd (handleBlur blockId st r))
  = handleBlur blockId st r.
Proof.
  unfold handleBlur. destruct (contentRef r) as [c|] eqn:Ec.
  - destruct (decide (Some c <> initialContentRef r)) as [Hne|He]; simpl.
    + rewrite ?Ec. now rewrite decide_False by (intros H; now apply H).
    + rewrite ?Ec. now rewrite decide_False by assumption.
  - simpl. now rewrite ?Ec.
Qed.

Lemma commits_false r :
  commits r = false <->
  match contentRef r with
  | Some c => initialContentRef r = Some c
  | None => True
  end.
Proof.
  unfold commits. destruct (contentRef r) as [c|]; [|done].
  rewrite bool_decide_eq_false. split.
  - intros H. destruct (decide (initialContentRef r = Some c)); [done|].
    exfalso. apply H. congruence.
  - intros H1 H2. congruence.
Qed.

Lemma handleBlur_idle blockId st r :
  commits r = false -> handleBlur blockId st r = (st, r).
Proof.
  intros H. apply commits_false in H. unfold handleBlur.
  destruct (contentRef r) as [c|]; [|reflexivity].
  now rewrite decide_False by (rewrite H; intros H'; now apply H').
Qed.

Lemma handleBlur_commit blockId st r c :
  contentRef r = Some c -> commits r = true ->
  handleBlur blockId st r
  = (updateNestedBlock blockId (mkUpdates (Some c) None) st,
     mkRefs (Some c) (Some c)).
Proof.
  intros Hc H. unfold commits, handleBlur in *. rewrite Hc in *.
  apply bool_decide_eq_true in H. now rewrite decide_True by assumption.
Qed.

Lemma findBlock_updateContent blockId st block c :
  findBlock (document st) blockId = Some block ->
  findBlock
    (document (updateNestedBlock blockId (mkUpdates (Some c) None) st))
    blockId
  = Some (mkBlock (id block) (type block) c (properties block)).
Proof.
  intros Hfind. unfold updateNestedBlock, updateContent.
  cbn [newContent newProperties].
  rewrite findBlock_mapBlock by reflexivity.
  now rewrite Hfind, String.eqb_refl.
Qed.

(** The render after a commit finds the element as the commit took it. *)
Lemma effects_after_commit b blockId st block c :
  findBlock (document st) blockId = Some block ->
  effects b (updateNestedBlock blockId (mkUpdates (Some c) None) st) blockId
    (mkRefs (Some c) (Some c))
  = mkRefs (Some c) (Some c).
Proof.
  intros Hfind. unfold effects.
  rewrite (findBlock_updateContent _ _ _ _ Hfind).
  cbn [contentRef initialContentRef content].
  destruct (decide (c = [])) as [->|]; [|reflexivity].
  now rewrite Dom.setInnerHTML_empty.
Qed.

Lemma mount_found b blockId st block :
  findBlock (document st) blockId = Some block ->
  mount b st blockId
  = mkRefs (Some (Dom.setInnerHTML b (content block)))
           (Some (content block)).
Proof.
  intros Hfind. unfold mount, effects. rewrite Hfind.
  cbn [contentRef initialContentRef].
  now rewrite decide_True by reflexivity.
Qed.


(** The first blur of a block whose content the browser reads back in
    another form commits that form. *)
Lemma first_blur_commits b blockId st block :
  findBlock (document st) blockId = Some block ->
  Dom.setInnerHTML b (content block) <> content block ->
  run b blockId st (mount b st blockId) [Blur]
  = (updateNestedBlock blockId
       (mkUpdates (Some (Dom.setInnerHTML b (content block))) None) st,
     mkRefs (Some (Dom.setInnerHTML b (content block)))
            (Some (Dom.setInnerHTML b (content block)))).
Proof.
  intros Hfind Hne. rewrite (mount_found _ _ _ _ Hfind).
  cbn [run step].
  assert (Hc : commits (mkRefs (Some (Dom.setInnerHTML b (content block)))
                               (Some (content block))) = true).
  { unfold commits. cbn [contentRef initialContentRef].
    apply bool_decide_eq_true. congruence. }
  rewrite (handleBlur_commit blockId st
             (mkRefs (Some (Dom.setInnerHTML b (content block)))
                     (Some (content block)))
             (Dom.setInnerHTML b (content block)) eq_refl Hc), Hc.
  now rewrite (effects_after_commit _ _ _ _ _ Hfind).
Qed.

Example ampersand_committed_at_blur :
  let st := mkStore (mkDocument [mkBlock "n1" PARAGRAPH (js "a & b") ∅])
                    None in
  contents (fst (run exampleBrowser "n1" st (mount exampleBrowser st "n1")
                   [Blur]))
  = [js "a &amp; b"].
Proof.
  intros st.
  rewrite (first_blur_commits exampleBrowser "n1" st
             (mkBlock "n1" PARAGRAPH (js "a & b") ∅) eq_refl)
    by (vm_compute; discriminate).
  reflexivity.
Qed.



Lemma findBlock_id st blockId block :
  findBlock (document st) blockId = Some block -> id block = blockId.
Proof.
  intros H. apply List.find_some in H. destruct H as [_ H].
  now apply String.eqb_eq in H.
Qed.

(** X8.  What is typed into a nested block is in the store after the
    blur: the block then has the content of the element and its id, type
    and properties as before; every other block and the active block are
    as before, and the refs both hold the committed content. *)
Theorem edit_then_blur_commits
    (b : Dom.Browser) (blockId : string) (st : EditorStore) (block : Block)
    (html : jsstring) :
  findBlock (document st) blockId = Some block ->
  let st' := fst (run b blockId st (mount b st blockId) [Edit html; Blur]) in
  let r' := snd (run b blockId st (mount b st blockId) [Edit html; Blur]) in
  findBlock (document st') blockId
  = Some (mkBlock (id block) (type block) html (properties block))
  /\ (forall other, other <> blockId ->
        findBlock (document st') other = findBlock (document st) other)
  /\ activeBlockId st' = activeBlockId st
  /\ r' = mkRefs (Some html) (Some html).
Proof.
  intros Hfind st' r'. subst st' r'. rewrite (mount_found _ _ _ _ Hfind).
  cbn [run step contentRef initialContentRef].
  destruct (commits (mkRefs (Some html) (Some (content block)))) eqn:Hc.
  - rewrite (handleBlur_commit blockId st
               (mkRefs (Some html) (Some (content block))) html eq_refl Hc).
    rewrite (effects_after_commit _ _ _ _ _ Hfind). cbn [fst snd].
    split; [now apply findBlock_updateContent|].
    repeat split.
    intros other Hother. unfold updateNestedBlock, updateContent.
    cbn [newContent newProperties].
    rewrite findBlock_mapBlock by reflexivity.
    destruct (String.eqb_spec other blockId); [contradiction|].
    now destruct (findBlock (document st) other).
  - rewrite (handleBlur_idle _ _ _ Hc). cbn [fst snd].
    apply commits_false in Hc. cbn [contentRef initialContentRef] in Hc.
    injection Hc as <-.
    repeat split. rewrite Hfind. now destruct block.
Qed.

Lemma edit_then_blur_commits_witness :
  let block := mkBlock "n1" PARAGRAPH (js "ABCD") ∅ in
  findBlock (document exampleStore) "n1" = Some block
  /\ findBlock
       (document (fst (run exampleBrowser "n1" exampleStore
                         (mount exampleBrowser exampleStore "n1")
                         [Edit (js "AB<br>CD"); Blur]))) "n1"
     = Some (mkBlock "n1" PARAGRAPH (js "AB<br>CD") ∅).
Proof.
  intros block.
  assert (H : findBlock (document exampleStore) "n1" = Some block)
    by reflexivity.
  refine (conj H _).
  exact (proj1 (edit_then_blur_commits exampleBrowser "n1" exampleStore block
                  (js "AB<br>CD") H)).
Defined.

Lemma applyPatch_twice (m1 m2 props : gmap string Value) :
  dom m1 = dom m2 ->
  applyPatch (Some <$> m2) (applyPatch (Some <$> m1) props)
  = applyPatch (Some <$> m2) props.
Proof.
  intros Hdom. apply map_eq. intros k. rewrite !applyPatch_lookup.
  destruct (m2 !! k) as [v|] eqn:E2; [reflexivity|].
  apply not_elem_of_dom in E2. rewrite <- Hdom in E2.
  apply not_elem_of_dom in E2. now rewrite E2.
Qed.

(** X9.  The last switch of a checkbox wins: switching it to one value and
    then to another leaves the store as switching it to the second value
    alone does. *)
Theorem checkbox_last_wins
    (blockId : string) (c1 c2 : bool) (st : EditorStore) :
  handleCheckboxChange blockId c2 (handleCheckboxChange blockId c1 st)
  = handleCheckboxChange blockId c2 st.
Proof.
  unfold handleCheckboxChange at 2 3.
  destruct (findBlock (document st) blockId) as [block|] eqn:Hfind.
  - unfold handleCheckboxChange, updateNestedBlock, updateProperties.
    cbn [newContent newProperties].
    rewrite findBlock_mapBlock by reflexivity.
    rewrite Hfind, String.eqb_refl. cbn [fmap option_fmap option_map properties].
    rewrite checkbox_patch_merged, insert_insert_eq.
    unfold mapBlock; simpl. f_equal. f_equal. rewrite map_map.
    apply map_ext. intros b.
    destruct (String.eqb_spec (id b) blockId) as [E|E]; simpl.
    + rewrite E, String.eqb_refl. f_equal.
      apply applyPatch_twice. now rewrite !dom_insert_L.
    + destruct (String.eqb_spec (id b) blockId); [contradiction|reflexivity].
  - unfold handleCheckboxChange. now rewrite Hfind.
Qed.

End NestedBlockMore.

(** ** The viewport hooks *)

Module UseMobileFacts.

Import UseMobile.

Local Open Scope Z_scope.

(** X10.  Every window width falls into exactly one device class: mobile
    below 640 pixels, tablet from 640 up to but not including 1024,
    desktop from 1024 on. *)
Theorem device_classes_partition (ws : WindowSize) :
  (width ws < 640
   /\ isMobile ws = true /\ isTablet ws = false /\ isDesktop ws = false)
  \/ (640 <= width ws < 1024
      /\ isMobile ws = false /\ isTablet ws = true /\ isDesktop ws = false)
  \/ (1024 <= width ws
      /\ isMobile ws = false /\ isTablet ws = false /\ isDesktop ws = true).
Proof.
  unfold isMobile, isTablet, isDesktop, BREAKPOINTS_mobile,
    BREAKPOINTS_tablet.
  destruct (Z.ltb_spec (width ws) 640), (Z.leb_spec 640 (width ws)),
    (Z.ltb_spec (width ws) 1024), (Z.leb_spec 1024 (width ws));
    simpl; try lia; intuition lia.
Qed.

Lemma settled_step st ev :
  (listening (snd st) = true -> pending (snd st) = false ->
   windowSize (snd st) = fst st) ->
  listening (snd (step st ev)) = true ->
  pending (snd (step st ev)) = false ->
  windowSize (snd (step st ev)) = fst (step st ev).
Proof.
  destruct st as [window h]. destruct ev as [window'| |]; simpl.
  - destruct (listening h) eqn:L; simpl; [discriminate | congruence].
  - destruct (pending h) eqn:P; simpl; auto.
  - discriminate.
Qed.

Lemma unmounted_step st ev :
  listening (snd st) = false -> pending (snd st) = false ->
  snd (step st ev) = snd st.
Proof.
  destruct st as [window [ws p l]]. simpl. intros -> ->.
  now destruct ev.
Qed.

(** X11.  The resize handler is debounced without losing the last size:
    at any moment after mounting at which no timer is pending, the size
    the hook reports is the size the window has, however many resize
    events came before; and once the component is unmounted, no event
    changes the state again. *)
Theorem debounced_size_is_current
    (window : WindowSize) (evs after : list Event) :
  (listening (snd (run (window, mount window) evs)) = true ->
   pending (snd (run (window, mount window) evs)) = false ->
   windowSize (snd (run (window, mount window) evs))
   = fst (run (window, mount window) evs))
  /\ snd (run (run (window, mount window) (evs ++ [Unmount])) after)
     = snd (run (window, mount window) (evs ++ [Unmount])).
Proof.
  split.
  - unfold run. induction evs as [|ev evs IH] using rev_ind.
    + simpl. discriminate.
    + rewrite fold_left_app. simpl. now apply settled_step.
  - unfold run at 2 3. rewrite fold_left_app. simpl.
    set (st := fold_left step evs (window, mount window)).
    assert (H : listening (snd (step st Unmount)) = false
                /\ pending (snd (step st Unmount)) = false)
      by (destruct st as [w h]; now split).
    destruct H as [Hl Hp]. revert Hl Hp.
    generalize (step st Unmount). intros st' Hl Hp.
    unfold run. induction after as [|ev after IH] using rev_ind;
      [reflexivity|].
    rewrite fold_left_app. simpl.
    rewrite unmounted_step; rewrite IH; auto.
Qed.

Lemma debounced_size_is_current_witness :
  let window := mkWindowSize 1280 800 in
  let evs := [Resize (mkWindowSize 900 800); Resize (mkWindowSize 600 800);
              Timeout] in
  listening (snd (run (window, mount window) evs)) = true
  /\ pending (snd (run (window, mount window) evs)) = false
  /\ windowSize (snd (run (window, mount window) evs))
     = mkWindowSize 600 800.
Proof.
  intros window evs.
  refine (conj eq_refl (conj eq_refl _)).
  exact (proj1 (debounced_size_is_current window evs []) eq_refl eq_refl).
Defined.


End UseMobileFacts.

(** ** The dialog *)

Module DialogFacts.

Import Dialog.

(** X13.  One key event makes the key handlers of a dialog call at most
    one callback: [onConfirm] for Enter in an open dialog, through the
    listener on the window unless the dialog is a prompt and through the
    input of the prompt otherwise, never through both; [onClose] for
    Escape in an open dialog; nothing for a closed dialog or another
    key. *)
Theorem key_handlers_call_once
    (props : Props) (inInput : bool) (e : Dom.KeyboardEvent) :
  keyHandlers props inInput e
  = if isOpen props then
      if String.eqb (Dom.key e) "Escape" then [OnClose]
      else if String.eqb (Dom.key e) "Enter"
                && (negb (String.eqb (type props) "prompt") || inInput)
           then confirm props
           else []
    else [].
Proof.
  unfold keyHandlers, handleKeyDown, inputKeyDown, hasInput.
  destruct (isOpen props), inInput,
    (String.eqb_spec (Dom.key e) "Escape"),
    (String.eqb_spec (Dom.key e) "Enter"),
    (String.eqb (type props) "prompt");
    simpl; try reflexivity; try congruence;
    now rewrite ?app_nil_r.
Qed.

End DialogFacts.

(** ** The sidebar *)

Module SidebarFacts.

Import Sidebar.

#[local] Arguments N.eqb : simpl never.

Lemma startsWith_spec p s :
  startsWith p s = true <-> exists post, s = p ++ post.
Proof.
  revert s. induction p as [|a p IH]; intros s; simpl.
  - split; [intros _; now exists s | reflexivity].
  - destruct s as [|b s].
    + split; [discriminate | intros [post H]; discriminate].
    + rewrite andb_true_iff, N.eqb_eq, IH. split.
      * intros [-> [post ->]]. now exists post.
      * intros [post [= -> ->]]. split; [reflexivity | now exists post].
Qed.

(** [includes] finds what occurs somewhere in the string. *)
Lemma includes_spec s sub :
  includes s sub = true <-> exists pre post, s = pre ++ sub ++ post.
Proof.
  induction s as [|c s IH]; simpl.
  - rewrite orb_false_r, startsWith_spec. split.
    + intros [post H]. now exists [], post.
    + intros (pre & post & H). destruct pre; [now exists post|discriminate].
  - rewrite orb_true_iff, startsWith_spec, IH. split.
    + intros [[post H]|(pre & post & ->)].
      * now exists [], post.
      * now exists (c :: pre), post.
    + intros (pre & post & H). destruct pre as [|c' pre].
      * left. now exists post.
      * right. injection H as -> ->. now exists pre, post.
Qed.

Lemma includes_nil s : includes s [] = true.
Proof. apply includes_spec. now exists [], s. Qed.

Lemma includes_trans s a b :
  includes s a = true -> includes a b = true -> includes s b = true.
Proof.
  rewrite !includes_spec.
  intros (pre & post & ->) (pre' & post' & ->).
  exists (pre ++ pre'), (post' ++ post). now rewrite <- !app_assoc.
Qed.

Section Filter.

Variable toLowerCase : jsstring -> jsstring.

(** X14.  The filter of the document list throws exactly when a document
    has no title; when every document has one, the result holds the
    documents whose title, in lower case, includes the query in lower
    case, in the order of the list. *)
Theorem filter_throws_iff_untitled
    (documents : list Doc) (searchQuery : jsstring) :
  (filteredDocuments toLowerCase documents searchQuery = None
   <-> Exists (fun doc => title doc = None) documents)
  /\ (forall found,
        filteredDocuments toLowerCase documents searchQuery = Some found ->
        found
        = List.filter
            (fun doc =>
               match title doc with
               | Some t =>
                   includes (toLowerCase t) (toLowerCase searchQuery)
               | None => false
               end)
            documents).
Proof.
  induction documents as [|doc documents [IH1 IH2]]; simpl.
  - split; [|now intros found [= <-]].
    split; [discriminate | intros H; inversion H].
  - destruct (title doc) as [t|] eqn:Et.
    + destruct (filteredDocuments toLowerCase documents searchQuery)
        as [found|] eqn:Ef.
      * split.
        -- split; [discriminate|]. intros H.
           inversion H as [? ? Hd|? ? Hd]; subst; [congruence|].
           apply IH1 in Hd. discriminate.
        -- intros found' [= <-]. rewrite (IH2 found eq_refl).
           now destruct (includes _ _).
      * split; [|discriminate].
        split; [|reflexivity]. intros _. right. now apply IH1.
    + split; [|discriminate].
      split; [|reflexivity]. intros _. now left.
Qed.

Lemma filter_titled (documents : list Doc) (searchQuery : jsstring) :
  Forall (fun doc => title doc <> None) documents ->
  filteredDocuments toLowerCase documents searchQuery
  = Some (List.filter
            (fun doc =>
               match title doc with
               | Some t =>
                   includes (toLowerCase t) (toLowerCase searchQuery)
               | None => false
               end)
            documents).
Proof.
  induction 1 as [|doc documents Hd _ IH]; simpl; [reflexivity|].
  destruct (title doc) as [t|]; [|contradiction].
  rewrite IH. now destruct (includes _ _).
Qed.

(** X15.  With an empty search box every document is listed: when every
    document has a title, the empty query keeps the whole list. *)
Theorem empty_query_lists_all (documents : list Doc) :
  toLowerCase [] = [] ->
  Forall (fun doc => title doc <> None) documents ->
  filteredDocuments toLowerCase documents [] = Some documents.
Proof.
  intros Hlow Hall. rewrite filter_titled by assumption. f_equal.
  induction Hall as [|doc documents Hd _ IH]; simpl; [reflexivity|].
  destruct (title doc) as [t|]; [|contradiction].
  now rewrite IH, Hlow, includes_nil.
Qed.

(** X16.  Typing more narrows the list: when the lower-case form of one
    query occurs in the lower-case form of another, every document found
    for the longer query is found for the shorter one. *)
Theorem longer_query_narrows
    (documents : list Doc) (short long : jsstring)
    (foundShort foundLong : list Doc) :
  includes (toLowerCase long) (toLowerCase short) = true ->
  filteredDocuments toLowerCase documents short = Some foundShort ->
  filteredDocuments toLowerCase documents long = Some foundLong ->
  sublist foundLong foundShort.
Proof.
  intros Hinc. revert foundShort foundLong.
  induction documents as [|doc documents IH]; simpl;
    intros foundShort foundLong.
  - intros [= <-] [= <-]. constructor.
  - destruct (title doc) as [t|]; [|discriminate].
    destruct (filteredDocuments toLowerCase documents short) as [fs|];
      [|discriminate].
    destruct (filteredDocuments toLowerCase documents long) as [fl|];
      [|discriminate].
    intros [= <-] [= <-]. specialize (IH fs fl eq_refl eq_refl).
    destruct (includes (toLowerCase t) (toLowerCase long)) eqn:El.
    + rewrite (includes_trans _ _ _ El Hinc). now constructor.
    + destruct (includes (toLowerCase t) (toLowerCase short));
        [now constructor | assumption].
Qed.

End Filter.

Lemma empty_query_lists_all_witness :
  let documents := [mkDoc "d1" (Some (js "Notes")); mkDoc "d2" (Some [])] in
  (fun s : jsstring => s) [] = []
  /\ Forall (fun doc => title doc <> None) documents
  /\ filteredDocuments (fun s => s) documents [] = Some documents.
Proof.
  intros documents.
  assert (H : Forall (fun doc => title doc <> None) documents)
    by (repeat constructor; discriminate).
  refine (conj eq_refl (conj H _)).
  exact (empty_query_lists_all (fun s => s) documents eq_refl H).
Defined.

Lemma longer_query_narrows_witness :
  let documents := [mkDoc "d1" (Some (js "notes")); mkDoc "d2" (Some (js "nodes"));
                    mkDoc "d3" (Some (js "old notes"))] in
  let found := [mkDoc "d1" (Some (js "notes"));
                mkDoc "d3" (Some (js "old notes"))] in
  includes (js "not") (js "no") = true
  /\ filteredDocuments (fun s => s) documents (js "no") = Some documents
  /\ filteredDocuments (fun s => s) documents (js "not") = Some found
  /\ sublist found documents.
Proof.
  intros documents found.
  refine (conj eq_refl (conj eq_refl (conj eq_refl _))).
  exact (longer_query_narrows (fun s => s) documents (js "no") (js "not")
           documents found eq_refl eq_refl eq_refl).
Defined.

Lemma filter_throws_iff_untitled_witness :
  let documents := [mkDoc "d1" (Some (js "notes")); mkDoc "d2" None] in
  Exists (fun doc => title doc = None) documents
  /\ filteredDocuments (fun s => s) documents (js "no") = None.
Proof.
  intros documents.
  assert (H : Exists (fun doc => title doc = None) documents)
    by (right; now left).
  refine (conj H _).
  exact (proj2 (proj1 (filter_throws_iff_untitled (fun s => s) documents
                         (js "no"))) H).
Defined.

Local Open Scope Z_scope.

(** X17.  The save status shows whole minutes from 1 to 59 and whole hours
    from 1 on: a save less than a minute ago, or a time of saving that
    lies ahead of the clock, reads [Just now]; from one minute up to but
    not including one hour the minutes are shown, after that the hours. *)
Theorem last_saved_ranges (now time : Z) :
  (now - time < 60000 ->
   formatLastSaved now (SavedAt time) = Some (js "Just now"))
  /\ (60000 <= now - time < 3600000 ->
      exists m, 1 <= m <= 59
        /\ formatLastSaved now (SavedAt time)
           = Some (digits m ++ js "m ago"))
  /\ (3600000 <= now - time ->
      exists h, 1 <= h
        /\ formatLastSaved now (SavedAt time)
           = Some (digits h ++ js "h ago")).
Proof.
  unfold formatLastSaved. repeat split.
  - intros H. now rewrite (proj2 (Z.ltb_lt _ _) H).
  - intros [H1 H2]. exists ((now - time) / 60000).
    rewrite (proj2 (Z.ltb_ge _ _) H1), (proj2 (Z.ltb_lt _ _) H2).
    split; [|reflexivity]. split.
    + apply Z.div_le_lower_bound; lia.
    + assert ((now - time) / 60000 < 60)
        by (apply Z.div_lt_upper_bound; lia). lia.
  - intros H. exists ((now - time) / 3600000).
    assert (H' : 60000 <= now - time) by lia.
    rewrite (proj2 (Z.ltb_ge _ _) H'), (proj2 (Z.ltb_ge _ _) H).
    split; [|reflexivity]. apply Z.div_le_lower_bound; lia.
Qed.

Lemma last_saved_ranges_witness :
  60000 <= 1000000 - 100000 < 3600000
  /\ exists m, 1 <= m <= 59
       /\ formatLastSaved 1000000 (SavedAt 100000)
          = Some (digits m ++ js "m ago").
Proof.
  assert (H : 60000 <= 1000000 - 100000 < 3600000) by lia.
  refine (conj H _).
  exact (proj1 (proj2 (last_saved_ranges 1000000 100000)) H).
Defined.

Example last_saved_quarter_hour :
  formatLastSaved 1000000 (SavedAt 100000) = Some (js "15m ago")
  /\ formatLastSaved 7200000 (SavedAt 0) = Some (js "2h ago")
  /\ formatLastSaved 0 (SavedAt 5000) = Some (js "Just now")
  /\ formatLastSaved 0 NotSaved = None.
Proof. repeat split. Qed.

Local Close Scope Z_scope.

(** *** Renaming a document *)

Lemma trimStart_suffix s : exists pre, s = pre ++ trimStart s.
Proof.
  induction s as [|c s [pre IH]]; simpl; [now exists []|].
  destruct (isWhiteSpace c); [|now exists []].
  exists (c :: pre). simpl. now rewrite <- IH.
Qed.

Lemma trimStart_head s c t :
  trimStart s = c :: t -> isWhiteSpace c = false.
Proof.
  induction s as [|a s IH]; simpl; [discriminate|].
  destruct (isWhiteSpace a) eqn:E; [assumption|].
  intros [= -> _]. exact E.
Qed.

(** What [trim] leaves begins and ends with a code unit that is not white
    space. *)
Lemma trim_ends s :
  (forall c, head (trim s) = Some c -> isWhiteSpace c = false)
  /\ (forall c, last (trim s) = Some c -> isWhiteSpace c = false).
Proof.
  unfold trim. set (u := trimStart s).
  destruct (trimStart (rev u)) as [|b v] eqn:Ev; [split; discriminate|].
  pose proof (trimStart_head _ _ _ Ev) as Hb.
  destruct (trimStart_suffix (rev u)) as [pre Hpre]. rewrite Ev in Hpre.
  split.
  - intros c Hc.
    assert (Hu : u = rev (b :: v) ++ rev pre).
    { rewrite <- (rev_involutive u), Hpre. now rewrite rev_app_distr. }
    destruct (rev (b :: v)) as [|c' w] eqn:Ew.
    + apply (f_equal (@length _)) in Ew. rewrite length_rev in Ew.
      discriminate.
    + simpl in Hc. injection Hc as ->.
      subst u. simpl in Hu. now apply (trimStart_head s c (w ++ rev pre)).
  - intros c. simpl. rewrite last_snoc. now intros [= <-].
Qed.

(** Whatever [handleSave] passes to [onRename] is a proper title. *)
Lemma handleSave_title it t :
  In (OnRename (Some t)) (snd (handleSave it)) ->
  t <> [] /\ Some t <> docTitle it
  /\ (forall c, head t = Some c -> isWhiteSpace c = false)
  /\ (forall c, last t = Some c -> isWhiteSpace c = false).
Proof.
  unfold handleSave; simpl.
  destruct (trim_ends (editValue it)) as [Hh Hl].
  destruct (trim (editValue it)) as [|c u] eqn:Et; cbv iota.
  - destruct (decide (Some (js "Untitled") <> docTitle it)) as [Hne|].
    2: { intros H. now apply in_nil in H. }
    intros [[= <-]|[]]. repeat split; try assumption; try discriminate.
    + intros c [= <-]. reflexivity.
    + intros c [= <-]. reflexivity.
  - case_decide; [|intros Hin; now apply in_nil in Hin].
    intros [[= <-]|[]]. repeat split; try assumption. discriminate.
Qed.

Lemma keyDown_rename it e call :
  In call (snd (handleKeyDown it e)) ->
  call = PreventDefault \/ In call (snd (handleSave it)).
Proof.
  unfold handleKeyDown. destruct (String.eqb (Dom.key e) "Enter").
  - destruct (handleSave it) as [it' calls]. cbn [snd].
    intros [<-|Hin]; auto.
  - destruct (String.eqb (Dom.key e) "Escape"); cbn [snd];
      intros Hin; now apply in_nil in Hin.
Qed.

Lemma step_rename it ev t :
  In (OnRename (Some t)) (snd (step it ev)) ->
  ev <> MenuRename /\ In (OnRename (Some t)) (snd (handleSave it)).
Proof.
  destruct ev as [|value|e| | |title]; unfold step.
  - destruct (isEditing it); intros Hin; now apply in_nil in Hin.
  - destruct (isEditing it); intros Hin; now apply in_nil in Hin.
  - destruct (isEditing it); [|intros Hin; now apply in_nil in Hin].
    intros Hin. apply keyDown_rename in Hin.
    destruct Hin as [Hin|Hin]; [discriminate|]. split; [discriminate|auto].
  - destruct (isEditing it); [|intros Hin; now apply in_nil in Hin].
    intros Hin. split; [discriminate|auto].
  - intros [Hin|Hin]; [discriminate | now apply in_nil in Hin].
  - intros Hin. now apply in_nil in Hin.
Qed.

Lemma step_rename_none it ev :
  In (OnRename None) (snd (step it ev)) -> ev = MenuRename.
Proof.
  assert (Hsave : ~ In (OnRename None) (snd (handleSave it))).
  { unfold handleSave; cbn [snd]. case_decide; [|apply in_nil].
    intros [Hin|Hin]; [discriminate | now apply in_nil in Hin]. }
  destruct ev as [|value|e| | |title]; unfold step.
  - destruct (isEditing it); intros Hin; now apply in_nil in Hin.
  - destruct (isEditing it); intros Hin; now apply in_nil in Hin.
  - destruct (isEditing it); [|intros Hin; now apply in_nil in Hin].
    intros Hin. apply keyDown_rename in Hin.
    destruct Hin as [Hin|Hin]; [discriminate|contradiction].
  - destruct (isEditing it); [|intros Hin; now apply in_nil in Hin].
    intros Hin. contradiction.
  - reflexivity.
  - intros Hin. now apply in_nil in Hin.
Qed.

(** Every call of a run is made by one of its events, in the state the
    events before it have led to. *)
Lemma run_call it evs call :
  In call (snd (run it evs)) ->
  exists pre ev post,
    evs = pre ++ ev :: post
    /\ In call (snd (step (fst (run it pre)) ev)).
Proof.
  revert it. induction evs as [|ev evs IH]; intros it; simpl;
    [contradiction|].
  destruct (step it ev) as [it1 calls1] eqn:Es.
  specialize (IH it1). destruct (run it1 evs) as [it2 calls2]. simpl in *.
  intros H. apply in_app_or in H. destruct H as [H|H].
  - exists [], ev, evs. simpl. rewrite Es. auto.
  - destruct (IH H) as (pre & ev' & post & -> & Hin).
    exists (ev :: pre), ev', post. simpl. rewrite Es.
    destruct (run it1 pre) as [it3 calls3]. simpl in *. auto.
Qed.

(** X18.  What [onRename] is called with.  The inline editor never
    passes a blank title: whatever is double-clicked, typed and pressed in
    a document row and however the title of the document changes in
    between, a title passed to [onRename] is not empty, begins and ends
    with a code unit that is not white space, and differs from the title
    the document has at the moment of the call.  The entry Rename of the
    menu calls [onRename] with no title, and nothing else does. *)
Theorem rename_gets_proper_title
    (it : Item) (evs : list Event) (newTitle : option jsstring) :
  In (OnRename newTitle) (snd (run it evs)) ->
  exists pre ev post,
    evs = pre ++ ev :: post
    /\ match newTitle with
       | Some t =>
           ev <> MenuRename
           /\ t <> [] /\ Some t <> docTitle (fst (run it pre))
           /\ (forall c, head t = Some c -> isWhiteSpace c = false)
           /\ (forall c, last t = Some c -> isWhiteSpace c = false)
       | None => ev = MenuRename
       end.
Proof.
  intros H. destruct (run_call _ _ _ H) as (pre & ev & post & -> & Hin).
  exists pre, ev, post. split; [reflexivity|].
  destruct newTitle as [t|].
  - apply step_rename in Hin. destruct Hin as [Hev Hin].
    split; [exact Hev|]. now apply handleSave_title.
  - now apply step_rename_none in Hin.
Qed.

Lemma rename_gets_proper_title_witness :
  let it := mkItem (Some (js "Notes")) false [] in
  let evs := [DoubleClick; Change (js "  Plans "); Blur;
              Render (Some (js "Plans")); MenuRename] in
  In (OnRename (Some (js "Plans"))) (snd (run it evs))
  /\ exists pre ev post,
       evs = pre ++ ev :: post
       /\ ev <> MenuRename
       /\ js "Plans" <> [] /\ Some (js "Plans") <> docTitle (fst (run it pre)).
Proof.
  intros it evs.
  assert (H : In (OnRename (Some (js "Plans"))) (snd (run it evs)))
    by (left; reflexivity).
  destruct (rename_gets_proper_title it evs (Some (js "Plans")) H)
    as (pre & ev & post & E & Hev & H1 & H2 & _).
  exact (conj H (ex_intro _ pre (ex_intro _ ev (ex_intro _ post
           (conj E (conj Hev (conj H1 H2))))))).
Defined.

(** The title is compared with the one the item has been rendered with:
    typing the new title once more after the rename has arrived renames
    nothing, and the menu entry passes no title whatever has been typed. *)
Example rename_then_same_title :
  let it := mkItem (Some (js "Notes")) false [] in
  snd (run it [DoubleClick; Change (js "Plans"); Blur;
               Render (Some (js "Plans"));
               DoubleClick; Change (js " Plans"); Blur; MenuRename])
  = [OnRename (Some (js "Plans")); OnRename None].
Proof. reflexivity. Qed.

(** X19.  Escape discards the edit: after a double click, whatever is
    typed, Escape ends the editing without a call of [onRename] and with
    the edit value back at the title of the document. *)
Theorem escape_discards_edit
    (it : Item) (values : list jsstring) (e : Dom.KeyboardEvent) :
  isEditing it = false -> Dom.key e = "Escape"%string ->
  run it (DoubleClick :: map Change values ++ [KeyDown e])
  = (mkItem (docTitle it) false (titleOrEmpty it), []).
Proof.
  intros Hedit Hkey.
  assert (H : forall v,
            run (mkItem (docTitle it) true v) (map Change values ++ [KeyDown e])
            = (mkItem (docTitle it) false (titleOrEmpty it), [])).
  { induction values as [|value values IH]; intros v; simpl.
    - unfold handleKeyDown. rewrite Hkey. reflexivity.
    - now rewrite IH. }
  change (run it (DoubleClick :: map Change values ++ [KeyDown e]))
    with (let '(it1, calls1) := step it DoubleClick in
          let '(it2, calls2) := run it1 (map Change values ++ [KeyDown e]) in
          (it2, calls1 ++ calls2)).
  unfold step, handleDoubleClick. rewrite Hedit, H. reflexivity.
Qed.

Lemma escape_discards_edit_witness :
  let it := mkItem (Some (js "Notes")) false [] in
  let e := Dom.mkKeyboardEvent "Escape" false in
  isEditing it = false /\ Dom.key e = "Escape"%string
  /\ run it [DoubleClick; Change (js "N"); Change (js "Ne"); KeyDown e]
     = (mkItem (Some (js "Notes")) false (js "Notes"), []).
Proof.
  intros it e.
  refine (conj eq_refl (conj eq_refl _)).
  exact (escape_discards_edit it [js "N"; js "Ne"] e eq_refl eq_refl).
Defined.

End SidebarFacts.
